(** * Pond client session core (client/client.go): a shallow embedding

    The development follows the Go source function by function.  Data is
    modelled as the code has it: [[]byte] and fixed byte arrays as
    [list byte], [uint64]/[uint32] as [N], [int64] as [Z], Go structs as
    records (one module per struct, so that fields keep their names), the
    [contacts] map as a [gmap], slices of pointers as lists updated by index.

    Packages that the file imports but does not define (the protobuf
    runtime and schema, ed25519, curve25519, bbssig, pem, time formatting)
    are interfaces: one type class per package, with the Go signatures. *)

From Stdlib Require Import ZArith NArith List String Bool Lia.
From Stdlib.Strings Require Import Byte.
From stdpp Require Import gmap list strings pretty.

Local Open Scope string_scope.
Local Open Scope list_scope.

Abbreviation bytes := (list byte).

(** ** Errors

    A Go [error] value is recorded with the place it was made: by
    [errors.New] in this file, by [proto.Unmarshal]/[proto.Marshal], or by
    [parseServer].  The imported functions report an error by its message
    ([inl detail]); the caller's side tags it with its origin. *)
Inductive error : Type :=
| errorsNew (msg : string)
| protoError (detail : string)
| serverError (detail : string).

Definition fromProto {A} (r : string + A) : error + A :=
  match r with inl detail => inl (protoError detail) | inr a => inr a end.

Definition fromServer {A} (r : string + A) : error + A :=
  match r with inl detail => inl (serverError detail) | inr a => inr a end.

(** ** The protobuf structs of package [pond] used by the client *)

Module SignedKeyExchange.
Record t := mk {
  Signed : bytes;
  Signature : bytes;
}.
End SignedKeyExchange.

Module KeyExchange.
Record t := mk {
  PublicKey : bytes;
  IdentityPublic : bytes;
  Server : string;
  Dh : bytes;
  Group : bytes;
  GroupKey : bytes;
  Generation : N;
}.
End KeyExchange.

Inductive Message_Encoding : Type := Message_RAW | Message_GZIP.

Module Message_Attachment.
Record t := mk {
  Filename : string;
  Contents : bytes;
}.
End Message_Attachment.

Module Message.
Record t := mk {
  Id : N;
  Time : Z;
  Body : bytes;
  BodyEncoding : option Message_Encoding;
  InReplyTo : option N;
  MyNextDh : bytes;
  Files : list Message_Attachment.t;
}.
End Message.

(** ** Imported packages as interfaces *)

(** [proto.Marshal] and [proto.Unmarshal] at the three message types, and
    the constant [pond.MaxSerializedMessage]. *)
Class Proto := {
  MaxSerializedMessage : nat;
  Marshal_SignedKeyExchange : SignedKeyExchange.t -> string + bytes;
  Unmarshal_SignedKeyExchange : bytes -> string + SignedKeyExchange.t;
  Marshal_KeyExchange : KeyExchange.t -> string + bytes;
  Unmarshal_KeyExchange : bytes -> string + KeyExchange.t;
  Marshal_Message : Message.t -> string + bytes;
}.

(** [ed25519.GenerateKey(rand)] (the public key, the private key and what
    is left of the random source), [ed25519.Sign(priv, msg)] and
    [ed25519.Verify(pub, msg, sig)]. *)
Class Ed25519 := {
  GenerateKey : bytes -> string + (bytes * bytes * bytes);
  Sign : bytes -> bytes -> bytes;
  Verify : bytes -> bytes -> bytes -> bool;
}.

(** [curve25519.ScalarBaseMult(dst, in)]: the value written to [dst]. *)
Class Curve25519 := {
  ScalarBaseMult : bytes -> bytes;
}.

(** Package [bbssig].  [Group.Unmarshal] returns [(group, ok)] and the
    group is used only when [ok]; [MemberKey.Unmarshal] returns a pointer and
    an [ok] flag, and the caller stores the pointer before testing [ok];
    [NewMember] reads randomness and may fail. *)
Class Bbssig := {
  Group : Type;
  MemberKey : Type;
  PrivateKey : Type;
  Group_Marshal : Group -> bytes;
  Group_Unmarshal : bytes -> option Group;
  MemberKey_Group : MemberKey -> Group;
  MemberKey_Marshal : MemberKey -> bytes;
  MemberKey_Unmarshal : Group -> bytes -> option MemberKey * bool;
  NewMember : PrivateKey -> bytes -> string + (MemberKey * bytes);
}.

(** [parseServer(address, testing)] lives in another file of the package;
    only its error result is used here. *)
Class ServerAddress := {
  parseServer : string -> bool -> string + (string * bytes);
}.

(** ** Contact *)

(** The two-generation Diffie-Hellman ratchet of a contact: the four DH
    fields of [Contact], as a value of its own. *)
Module Ratchet.
Record t := mk {
  lastDHPrivate : bytes;
  currentDHPrivate : bytes;
  theirLastDHPublic : bytes;
  theirCurrentDHPublic : bytes;
}.
End Ratchet.

Module Contact.
Record t `{Bbssig} := mk {
  id : N;
  name : string;
  isPending : bool;
  kxsBytes : bytes;
  groupKey : option MemberKey;
  myGroupKey : option MemberKey;
  generation : N;
  theirServer : string;
  theirPub : bytes;
  theirIdentityPublic : bytes;
  lastDHPrivate : bytes;
  currentDHPrivate : bytes;
  theirLastDHPublic : bytes;
  theirCurrentDHPublic : bytes;
}.

Section Setters.
Context `{Bbssig}.

Definition set_isPending (v : bool) (c : t) : t :=
  mk _ (id c) (name c) v (kxsBytes c) (groupKey c) (myGroupKey c)
     (generation c) (theirServer c) (theirPub c) (theirIdentityPublic c)
     (lastDHPrivate c) (currentDHPrivate c) (theirLastDHPublic c)
     (theirCurrentDHPublic c).

Definition set_kxsBytes (v : bytes) (c : t) : t :=
  mk _ (id c) (name c) (isPending c) v (groupKey c) (myGroupKey c)
     (generation c) (theirServer c) (theirPub c) (theirIdentityPublic c)
     (lastDHPrivate c) (currentDHPrivate c) (theirLastDHPublic c)
     (theirCurrentDHPublic c).

Definition set_groupKey (v : option MemberKey) (c : t) : t :=
  mk _ (id c) (name c) (isPending c) (kxsBytes c) v (myGroupKey c)
     (generation c) (theirServer c) (theirPub c) (theirIdentityPublic c)
     (lastDHPrivate c) (currentDHPrivate c) (theirLastDHPublic c)
     (theirCurrentDHPublic c).

Definition set_myGroupKey (v : option MemberKey) (c : t) : t :=
  mk _ (id c) (name c) (isPending c) (kxsBytes c) (groupKey c) v
     (generation c) (theirServer c) (theirPub c) (theirIdentityPublic c)
     (lastDHPrivate c) (currentDHPrivate c) (theirLastDHPublic c)
     (theirCurrentDHPublic c).

Definition set_generation (v : N) (c : t) : t :=
  mk _ (id c) (name c) (isPending c) (kxsBytes c) (groupKey c) (myGroupKey c)
     v (theirServer c) (theirPub c) (theirIdentityPublic c)
     (lastDHPrivate c) (currentDHPrivate c) (theirLastDHPublic c)
     (theirCurrentDHPublic c).

Definition set_theirServer (v : string) (c : t) : t :=
  mk _ (id c) (name c) (isPending c) (kxsBytes c) (groupKey c) (myGroupKey c)
     (generation c) v (theirPub c) (theirIdentityPublic c)
     (lastDHPrivate c) (currentDHPrivate c) (theirLastDHPublic c)
     (theirCurrentDHPublic c).

Definition set_theirPub (v : bytes) (c : t) : t :=
  mk _ (id c) (name c) (isPending c) (kxsBytes c) (groupKey c) (myGroupKey c)
     (generation c) (theirServer c) v (theirIdentityPublic c)
     (lastDHPrivate c) (currentDHPrivate c) (theirLastDHPublic c)
     (theirCurrentDHPublic c).

Definition set_theirIdentityPublic (v : bytes) (c : t) : t :=
  mk _ (id c) (name c) (isPending c) (kxsBytes c) (groupKey c) (myGroupKey c)
     (generation c) (theirServer c) (theirPub c) v
     (lastDHPrivate c) (currentDHPrivate c) (theirLastDHPublic c)
     (theirCurrentDHPublic c).

Definition set_lastDHPrivate (v : bytes) (c : t) : t :=
  mk _ (id c) (name c) (isPending c) (kxsBytes c) (groupKey c) (myGroupKey c)
     (generation c) (theirServer c) (theirPub c) (theirIdentityPublic c)
     v (currentDHPrivate c) (theirLastDHPublic c)
     (theirCurrentDHPublic c).

Definition set_theirCurrentDHPublic (v : bytes) (c : t) : t :=
  mk _ (id c) (name c) (isPending c) (kxsBytes c) (groupKey c) (myGroupKey c)
     (generation c) (theirServer c) (theirPub c) (theirIdentityPublic c)
     (lastDHPrivate c) (currentDHPrivate c) (theirLastDHPublic c)
     v.

Definition ratchet (c : t) : Ratchet.t :=
  Ratchet.mk (lastDHPrivate c) (currentDHPrivate c) (theirLastDHPublic c)
             (theirCurrentDHPublic c).

Definition set_ratchet (v : Ratchet.t) (c : t) : t :=
  mk _ (id c) (name c) (isPending c) (kxsBytes c) (groupKey c) (myGroupKey c)
     (generation c) (theirServer c) (theirPub c) (theirIdentityPublic c)
     (Ratchet.lastDHPrivate v) (Ratchet.currentDHPrivate v)
     (Ratchet.theirLastDHPublic v) (Ratchet.theirCurrentDHPublic v).

End Setters.
End Contact.

(** ** The remaining structs of client.go *)

(** [time.Time]: its zero value, or an instant in Unix seconds. *)
Inductive time_Time : Type :=
| time_zero
| time_Unix (sec : Z).

(** [InboxMessage]: [message] is a pointer that is nil while the sender is
    still pending, in which case [sealed] holds the encrypted message. *)
Module InboxMessage.
Record t := mk {
  id : N;
  read : bool;
  receivedTime : time_Time;
  from : N;
  sealed : bytes;
  acked : bool;
  message : option Message.t;
}.

Definition set_read (v : bool) (c : t) : t :=
  mk (id c) v (receivedTime c) (from c) (sealed c) (acked c) (message c).

Definition set_sealed (v : bytes) (c : t) : t :=
  mk (id c) (read c) (receivedTime c) (from c) v (acked c) (message c).

Definition set_acked (v : bool) (c : t) : t :=
  mk (id c) (read c) (receivedTime c) (from c) (sealed c) v (message c).

Definition set_message (v : option Message.t) (c : t) : t :=
  mk (id c) (read c) (receivedTime c) (from c) (sealed c) (acked c) v.
End InboxMessage.

(** [queuedMessage], without its [request] field (the sealed request that
    the network code builds and transmits; nothing in this file reads it). *)
Module queuedMessage.
Record t := mk {
  id : N;
  to : N;
  server : string;
  created : time_Time;
  sent : time_Time;
  acked : time_Time;
  message : Message.t;
}.
End queuedMessage.

(** ** The presentation gateway, as far as this file drives it

    Widgets are identified by their names; the actions sent on
    [c.ui.Actions()] are recorded in order. *)

Inductive Indicator : Type :=
| indicatorNone | indicatorRed | indicatorYellow | indicatorGreen
| indicatorBlue.

Inductive Action : Type :=
| Destroy (name : string)
| SetText (name text : string)
| SetImage (name : string) (image : Indicator)
| SetBackground (name : string) (color : N)
| AddToBox (box : string) (pos : nat) (child : string)
| Sensitive (name : string) (sensitive : bool)
| SetTextView (name text : string)
| UIState (state : nat)
| UIError (err : error).

(** What the session goroutine does to the outside, in program order. *)
Inductive Effect : Type :=
| Act (a : Action)        (* c.ui.Actions() <- a *)
| Signal                  (* c.ui.Signal() *)
| Errorf (msg : string)   (* c.log.Errorf(...) *)
| SendState               (* c.writerChan <- serialised state *)
| CloseWriterChan         (* close(c.writerChan) *)
| RecvWriterDone          (* <-c.writerDone *)
| CloseFetchNowChan       (* close(c.fetchNowChan) *)
| CloseActions            (* close(c.ui.Actions()) *)
| Park.                   (* select {} *)

(** A channel variable: nil, made and open, or closed. *)
Inductive chan : Type := nilChan | openChan | closedChan.

Definition colorGray : N := 0xfafafa.
Definition colorHighlight : N := 0xffebcd.

Definition uiStateNewContact2 : nat := 7.
Definition uiStateInbox : nat := 13.

Definition keyExchangePEM : string := "POND KEY EXCHANGE".

Module listItem.
Record t := mk {
  id : N;
  name : string;
  sepName : string;
  boxName : string;
  imageName : string;
  sublineTextName : string;
}.
End listItem.

Module listUI.
Record t := mk {
  vboxName : string;
  entries : list listItem.t;
  selected : N;
  nextId : nat;
}.

Definition set_entries (v : list listItem.t) (c : t) : t :=
  mk (vboxName c) v (selected c) (nextId c).

Definition set_selected (v : N) (c : t) : t :=
  mk (vboxName c) (entries c) v (nextId c).

Definition set_nextId (v : nat) (c : t) : t :=
  mk (vboxName c) (entries c) (selected c) v.
End listUI.

(** ** client

    The fields of [client] that the modelled functions use.  [rand] is the
    sequence of bytes the [io.Reader] still has to deliver; [effects] is the
    record of everything sent to the UI, the log and the channels. *)

Module client.
Record t `{Bbssig} := mk {
  testing : bool;
  server : string;
  identity : bytes;
  identityPublic : bytes;
  groupPriv : option PrivateKey;
  generation : N;
  priv : bytes;
  pub : bytes;
  rand : bytes;
  writerChan : chan;
  writerDone : chan;
  fetchNowChan : chan;
  uiActions : chan;
  inboxUI : listUI.t;
  outboxUI : listUI.t;
  contactsUI : listUI.t;
  clientUI : listUI.t;
  outbox : list queuedMessage.t;
  contacts : gmap N Contact.t;
  inbox : list InboxMessage.t;
  queue : list queuedMessage.t;
  effects : list Effect;
}.

Section Setters.
Context `{Bbssig}.

Definition set_rand (v : bytes) (c : t) : t :=
  mk _ (testing c) (server c) (identity c) (identityPublic c) (groupPriv c)
     (generation c) (priv c) (pub c) v (writerChan c) (writerDone c)
     (fetchNowChan c) (uiActions c) (inboxUI c) (outboxUI c) (contactsUI c)
     (clientUI c) (outbox c) (contacts c) (inbox c) (queue c) (effects c).

Definition set_writerChan (v : chan) (c : t) : t :=
  mk _ (testing c) (server c) (identity c) (identityPublic c) (groupPriv c)
     (generation c) (priv c) (pub c) (rand c) v (writerDone c)
     (fetchNowChan c) (uiActions c) (inboxUI c) (outboxUI c) (contactsUI c)
     (clientUI c) (outbox c) (contacts c) (inbox c) (queue c) (effects c).

Definition set_fetchNowChan (v : chan) (c : t) : t :=
  mk _ (testing c) (server c) (identity c) (identityPublic c) (groupPriv c)
     (generation c) (priv c) (pub c) (rand c) (writerChan c) (writerDone c)
     v (uiActions c) (inboxUI c) (outboxUI c) (contactsUI c) (clientUI c)
     (outbox c) (contacts c) (inbox c) (queue c) (effects c).

Definition set_uiActions (v : chan) (c : t) : t :=
  mk _ (testing c) (server c) (identity c) (identityPublic c) (groupPriv c)
     (generation c) (priv c) (pub c) (rand c) (writerChan c) (writerDone c)
     (fetchNowChan c) v (inboxUI c) (outboxUI c) (contactsUI c) (clientUI c)
     (outbox c) (contacts c) (inbox c) (queue c) (effects c).

Definition set_inboxUI (v : listUI.t) (c : t) : t :=
  mk _ (testing c) (server c) (identity c) (identityPublic c) (groupPriv c)
     (generation c) (priv c) (pub c) (rand c) (writerChan c) (writerDone c)
     (fetchNowChan c) (uiActions c) v (outboxUI c) (contactsUI c)
     (clientUI c) (outbox c) (contacts c) (inbox c) (queue c) (effects c).

Definition set_outboxUI (v : listUI.t) (c : t) : t :=
  mk _ (testing c) (server c) (identity c) (identityPublic c) (groupPriv c)
     (generation c) (priv c) (pub c) (rand c) (writerChan c) (writerDone c)
     (fetchNowChan c) (uiActions c) (inboxUI c) v (contactsUI c)
     (clientUI c) (outbox c) (contacts c) (inbox c) (queue c) (effects c).

Definition set_contactsUI (v : listUI.t) (c : t) : t :=
  mk _ (testing c) (server c) (identity c) (identityPublic c) (groupPriv c)
     (generation c) (priv c) (pub c) (rand c) (writerChan c) (writerDone c)
     (fetchNowChan c) (uiActions c) (inboxUI c) (outboxUI c) v (clientUI c)
     (outbox c) (contacts c) (inbox c) (queue c) (effects c).

Definition set_outbox (v : list queuedMessage.t) (c : t) : t :=
  mk _ (testing c) (server c) (identity c) (identityPublic c) (groupPriv c)
     (generation c) (priv c) (pub c) (rand c) (writerChan c) (writerDone c)
     (fetchNowChan c) (uiActions c) (inboxUI c) (outboxUI c) (contactsUI c)
     (clientUI c) v (contacts c) (inbox c) (queue c) (effects c).

Definition set_contacts (v : gmap N Contact.t) (c : t) : t :=
  mk _ (testing c) (server c) (identity c) (identityPublic c) (groupPriv c)
     (generation c) (priv c) (pub c) (rand c) (writerChan c) (writerDone c)
     (fetchNowChan c) (uiActions c) (inboxUI c) (outboxUI c) (contactsUI c)
     (clientUI c) (outbox c) v (inbox c) (queue c) (effects c).

Definition set_inbox (v : list InboxMessage.t) (c : t) : t :=
  mk _ (testing c) (server c) (identity c) (identityPublic c) (groupPriv c)
     (generation c) (priv c) (pub c) (rand c) (writerChan c) (writerDone c)
     (fetchNowChan c) (uiActions c) (inboxUI c) (outboxUI c) (contactsUI c)
     (clientUI c) (outbox c) (contacts c) v (queue c) (effects c).

Definition set_queue (v : list queuedMessage.t) (c : t) : t :=
  mk _ (testing c) (server c) (identity c) (identityPublic c) (groupPriv c)
     (generation c) (priv c) (pub c) (rand c) (writerChan c) (writerDone c)
     (fetchNowChan c) (uiActions c) (inboxUI c) (outboxUI c) (contactsUI c)
     (clientUI c) (outbox c) (contacts c) (inbox c) v (effects c).

Definition set_effects (v : list Effect) (c : t) : t :=
  mk _ (testing c) (server c) (identity c) (identityPublic c) (groupPriv c)
     (generation c) (priv c) (pub c) (rand c) (writerChan c) (writerDone c)
     (fetchNowChan c) (uiActions c) (inboxUI c) (outboxUI c) (contactsUI c)
     (clientUI c) (outbox c) (contacts c) (inbox c) (queue c) v.

End Setters.
End client.

(** ** A state-and-error monad for code that mutates through a pointer and
       returns an [error]

    [StErr S A] is a computation over a mutable [S] that either returns an
    [A] or stops with an error; the state reached so far is kept in both
    cases, as with a Go pointer receiver. *)

Definition StErr (S A : Type) : Type := S -> S * (error + A).

#[global] Instance StErr_ret S : MRet (StErr S) := fun A a s => (s, inr a).

#[global] Instance StErr_bind S : MBind (StErr S) := fun A B k m s =>
  match m s with
  | (s', inl e) => (s', inl e)
  | (s', inr a) => k a s'
  end.

Definition throw {S A} (e : error) : StErr S A := fun s => (s, inl e).

(** [v, err := f(...); if err != nil { return err }] *)
Definition try {S A} (r : error + A) : StErr S A := fun s => (s, r).

(** [if !cond { return e }] *)
Definition require {S} (cond : bool) (e : error) : StErr S unit :=
  if cond then mret tt else throw e.

Definition gets {S A} (f : S -> A) : StErr S A := fun s => (s, inr (f s)).

Definition modify {S} (f : S -> S) : StErr S unit := fun s => (f s, inr tt).

(** ** [Contact.processKeyExchange] (client.go, lines 1577-1629) *)

Section KeyExchange.
Context `{Proto} `{Ed25519} `{Bbssig} `{ServerAddress}.

Definition processKeyExchange (kxsBytes : bytes) (testing : bool)
  : StErr Contact.t unit :=
  kxs ← try (fromProto (Unmarshal_SignedKeyExchange kxsBytes));
  require (length (SignedKeyExchange.Signature kxs) =? 64)%nat
          (errorsNew "invalid signature length");;
  let sig := SignedKeyExchange.Signature kxs in
  kx ← try (fromProto (Unmarshal_KeyExchange (SignedKeyExchange.Signed kxs)));
  require (length (KeyExchange.PublicKey kx) =? 32)%nat
          (errorsNew "invalid public key");;
  modify (Contact.set_theirPub (KeyExchange.PublicKey kx));;
  theirPub ← gets Contact.theirPub;
  require (Verify theirPub (SignedKeyExchange.Signed kxs) sig)
          (errorsNew "invalid signature");;
  modify (Contact.set_theirServer (KeyExchange.Server kx));;
  theirServer ← gets Contact.theirServer;
  _ ← try (fromServer (parseServer theirServer testing));
  match Group_Unmarshal (KeyExchange.Group kx) with
  | None => throw (errorsNew "invalid group")
  | Some group =>
      let '(key, ok) := MemberKey_Unmarshal group (KeyExchange.GroupKey kx) in
      modify (Contact.set_myGroupKey key);;
      require ok (errorsNew "invalid group key");;
      require (length (KeyExchange.IdentityPublic kx) =? 32)%nat
              (errorsNew "invalid public identity");;
      modify (Contact.set_theirIdentityPublic (KeyExchange.IdentityPublic kx));;
      require (length (KeyExchange.Dh kx) =? 32)%nat
              (errorsNew "invalid public DH value");;
      modify (Contact.set_theirCurrentDHPublic (KeyExchange.Dh kx));;
      modify (Contact.set_generation (KeyExchange.Generation kx));;
      mret tt
  end.

End KeyExchange.

(** A [Click] event of the UI: the widget's name and the contents of the
    entries, text views and combo boxes; a missing key reads as the empty
    string, as in a Go map of strings. *)
Module Click.
Record t := mk {
  name : string;
  entries : gmap string string;
  textViews : gmap string string;
  combos : gmap string string;
}.
End Click.

Definition mapString (m : gmap string string) (key : string) : string :=
  default "" (m !! key).

(** The screen an event loop hands over to when it returns. *)
Inductive Screen : Type :=
| showOutbox (id : N)
| showContact (id : N).

(** One round of an event loop: [continue], or [return] of the next screen. *)
Inductive LoopStep : Type :=
| Continue
| Return (next : Screen).

(** ** More imported functions *)

(** [pem.Decode] (the first block: its type and bytes) and [pem.Encode]. *)
Class Pem := {
  pem_Decode : bytes -> option (string * bytes);
  pem_Encode : string -> bytes -> bytes;
}.

(** [time.Unix(sec, 0).Format(shortTimeFormat)]. *)
Class TimeFormat := {
  formatShortTime : Z -> string;
}.

(** Modelled from the spec: [client.unsealMessage] is defined in the
    network file, which is not part of the sources at hand.  The spec's
    external unseal capability takes the sealed ciphertext and the sending
    contact and either fails or yields the decoded record; after the
    handshake a contact changes only by the advancement of its ratchet, so
    the capability also yields the ratchet to continue with. *)
Class Sealing `{Bbssig} := {
  unseal : Contact.t -> bytes -> option (Message.t * Ratchet.t);
}.

(** ** The client goroutine

    [Cl A] is a step of the session goroutine: it reads and updates the
    client and returns an [A], or does not return at all ([None]: a panic,
    or blocking for ever on a channel). *)

Section Client.
Context `{Proto} `{Ed25519} `{Curve25519} `{Bbssig} `{ServerAddress}.
Context `{Pem} `{TimeFormat} `{!Sealing}.

Definition Cl (A : Type) : Type := client.t -> option (A * client.t).

#[global] Instance Cl_ret : MRet Cl := fun A a c => Some (a, c).

#[global] Instance Cl_bind : MBind Cl := fun A B k m c =>
  match m c with
  | None => None
  | Some (a, c') => k a c'
  end.

Definition panic {A} : Cl A := fun _ => None.

(** Dereferencing a pointer, or indexing: nil or out of range panics. *)
Definition deref {A} (o : option A) : Cl A :=
  match o with Some a => mret a | None => panic end.

Definition get {A} (f : client.t -> A) : Cl A := fun c => Some (f c, c).

Definition update (f : client.t -> client.t) : Cl unit :=
  fun c => Some (tt, f c).

Definition emit (es : list Effect) : Cl unit :=
  update (fun c => client.set_effects (client.effects c ++ es) c).

(** [err.Error()] *)
Definition Error (e : error) : string :=
  match e with
  | errorsNew msg => msg
  | protoError detail => detail
  | serverError detail => detail
  end.

(** *** Randomness: [randBytes] and [randId] (lines 1933-1949) *)

(** [io.ReadFull(c.rand, buf)] with [len(buf) = n]; a short read panics. *)
Definition randBytes (n : nat) : Cl bytes :=
  r ← get client.rand;
  if (n <=? length r)%nat
  then update (client.set_rand (drop n r));; mret (take n r)
  else panic.

(** [binary.LittleEndian.Uint64] *)
Definition LittleEndian_Uint64 (b : bytes) : N :=
  match b with
  | [b0; b1; b2; b3; b4; b5; b6; b7] =>
      N.lor (Byte.to_N b0)
     (N.lor (N.shiftl (Byte.to_N b1) 8)
     (N.lor (N.shiftl (Byte.to_N b2) 16)
     (N.lor (N.shiftl (Byte.to_N b3) 24)
     (N.lor (N.shiftl (Byte.to_N b4) 32)
     (N.lor (N.shiftl (Byte.to_N b5) 40)
     (N.lor (N.shiftl (Byte.to_N b6) 48)
            (N.shiftl (Byte.to_N b7) 56)))))))
  | _ => 0
  end.

(** The loop of [randId] over the bytes still to be read: each round takes
    eight bytes, so the recursion is structural in the reader's contents. *)
Fixpoint randId_loop (r : bytes) : option (N * bytes) :=
  match r with
  | b0 :: b1 :: b2 :: b3 :: b4 :: b5 :: b6 :: b7 :: r' =>
      let n := LittleEndian_Uint64 [b0; b1; b2; b3; b4; b5; b6; b7] in
      if (n =? 0)%N then randId_loop r' else Some (n, r')
  | _ => None
  end.

Definition randId : Cl N :=
  r ← get client.rand;
  '(n, r') ← deref (randId_loop r);
  update (client.set_rand r');;
  mret n.

(** *** listUI (lines 566-758) *)

Definition listUI_newIdent (cs : listUI.t) : string * listUI.t :=
  (listUI.vboxName cs +:+ "-" +:+ pretty (listUI.nextId cs),
   listUI.set_nextId (S (listUI.nextId cs)) cs).

Definition listUI_find (cs : listUI.t) (id : N) : option listItem.t :=
  find (fun entry => (listItem.id entry =? id)%N) (listUI.entries cs).

Definition listUI_Add (cs : listUI.t) (id : N) (name subline : string)
    (indicator : Indicator) : listUI.t * list Effect :=
  let '(sepName, cs) := listUI_newIdent cs in
  let '(boxName, cs) := listUI_newIdent cs in
  let '(imageName, cs) := listUI_newIdent cs in
  let '(sublineTextName, cs) := listUI_newIdent cs in
  let c := listItem.mk id name sepName boxName imageName sublineTextName in
  let cs := listUI.set_entries (listUI.entries cs ++ [c]) cs in
  let index := (length (listUI.entries cs) - 1)%nat in
  (cs, [Act (AddToBox (listUI.vboxName cs) (index * 2) sepName);
        Act (AddToBox (listUI.vboxName cs) (index * 2 + 1) boxName);
        Signal]).

(** [Remove] panics when no entry has the id. *)
Definition listUI_Remove (cs : listUI.t) (id : N) : option (list Effect) :=
  entry ← listUI_find cs id;
  Some [Act (Destroy (listItem.sepName entry));
        Act (Destroy (listItem.boxName entry)); Signal].

Definition listUI_SetIndicator (cs : listUI.t) (id : N)
    (indicator : Indicator) : list Effect :=
  match listUI_find cs id with
  | Some entry => [Act (SetImage (listItem.imageName entry) indicator); Signal]
  | None => []
  end.

Definition listUI_SetSubline (cs : listUI.t) (id : N) (subline : string)
    : list Effect :=
  match listUI_find cs id with
  | Some entry =>
      if (0 <? String.length subline)%nat
      then [Act (SetText (listItem.sublineTextName entry) subline); Signal]
      else [Act (Destroy (listItem.sublineTextName entry)); Signal]
  | None => []
  end.

(** The scan of [Select]: the box names of the selected entry and of the
    entry to select, stopping as soon as both are known. *)
Fixpoint listUI_Select_scan (selected id : N) (entries : list listItem.t)
    (currentlySelected newSelected : string) : string * string :=
  match entries with
  | [] => (currentlySelected, newSelected)
  | entry :: entries =>
      let '(cur, new) :=
        if (listItem.id entry =? selected)%N
        then (listItem.boxName entry, newSelected)
        else if (listItem.id entry =? id)%N
             then (currentlySelected, listItem.boxName entry)
             else (currentlySelected, newSelected) in
      if (0 <? String.length cur)%nat && (0 <? String.length new)%nat
      then (cur, new)
      else listUI_Select_scan selected id entries cur new
  end.

Definition listUI_Select (cs : listUI.t) (id : N)
    : option (listUI.t * list Effect) :=
  if (id =? listUI.selected cs)%N then Some (cs, [])
  else
    let '(cur, new) :=
      listUI_Select_scan (listUI.selected cs) id (listUI.entries cs) "" "" in
    if (String.length new =? 0)%nat then None
    else Some (listUI.set_selected id cs,
               (if (0 <? String.length cur)%nat
                then [Act (SetBackground cur colorGray)] else [])
               ++ [Act (SetBackground new colorHighlight); Signal]).

(** *** [newKeyExchange] (lines 1951-1988)

    [contact] is a pointer in the source; the updated contact is returned
    next to the bytes and the caller stores it where the pointer points.
    A failing [NewMember] or [proto.Marshal] panics. *)
Definition newKeyExchange (contact : Contact.t) : Cl (bytes * Contact.t) :=
  lastDHPrivate ← randBytes 32;
  let contact := Contact.set_lastDHPrivate lastDHPrivate contact in
  let pub := ScalarBaseMult (Contact.lastDHPrivate contact) in
  groupPriv ← get client.groupPriv ≫= deref;
  r ← get client.rand;
  match NewMember groupPriv r with
  | inl _ => panic
  | inr (groupKey, r') =>
      update (client.set_rand r');;
      let contact := Contact.set_groupKey (Some groupKey) contact in
      c ← get (fun c => c);
      let kx := KeyExchange.mk
                  (client.pub c) (client.identityPublic c)
                  (client.server c) pub
                  (Group_Marshal (MemberKey_Group groupKey))
                  (MemberKey_Marshal groupKey)
                  (client.generation c) in
      match Marshal_KeyExchange kx with
      | inl _ => panic
      | inr kxBytes =>
          let sig := Sign (client.priv c) kxBytes in
          let kxs := SignedKeyExchange.mk kxBytes sig in
          match Marshal_SignedKeyExchange kxs with
          | inl _ => panic
          | inr kxsBytes =>
              let contact := Contact.set_kxsBytes kxsBytes contact in
              mret (Contact.kxsBytes contact, contact)
          end
      end
  end.

(** *** [usageString] and [attachmentsMapToList] (lines 864-902) *)

(** A nil map gives nil; otherwise the attachments in the map's iteration
    order, which Go leaves unspecified and [map_to_list] fixes. *)
Definition attachmentsMapToList
    (attachments : option (gmap N Message_Attachment.t))
    : list Message_Attachment.t :=
  match attachments with
  | None => []
  | Some attachments => (map_to_list attachments).*2
  end.

(** The candidate record that [usageString] serialises. *)
Definition usageCandidate (body : string) (isReply : bool)
    (attachments : option (gmap N Message_Attachment.t)) : Message.t :=
  let replyToId := if isReply then Some 1%N else None in
  let dhPub := replicate 32 x00 in
  Message.mk 0%N (2 ^ 62)%Z (list_byte_of_string body) (Some Message_RAW)
             replyToId dhPub (attachmentsMapToList attachments).

(** [None] is the panic on a failing [proto.Marshal]. *)
Definition usageString (body : string) (isReply : bool)
    (attachments : option (gmap N Message_Attachment.t))
    : option (string * bool) :=
  match Marshal_Message (usageCandidate body isReply attachments) with
  | inl _ => None
  | inr serialized =>
      let s := pretty (length serialized) +:+ " of "
               +:+ pretty MaxSerializedMessage +:+ " bytes" in
      Some (s, (MaxSerializedMessage <? length serialized)%nat)
  end.

(** *** [enqueue] (lines 1176-1181); the mutex has no sequential content. *)
Definition enqueue (m : queuedMessage.t) : Cl unit :=
  update (fun c => client.set_queue (client.queue c ++ [m]) c).

(** Modelled from the spec: [client.send] is defined in the network file,
    which is not part of the sources at hand.  Per the spec, a record whose
    serialised form exceeds the bound is rejected before it is enqueued;
    otherwise an outbound message is created for it (id, destination
    contact and address, creation time, not yet sent or acknowledged) and
    appended to the queue and to the outbox. *)
Definition newQueuedMessage (to : Contact.t) (message : Message.t)
    : queuedMessage.t :=
  queuedMessage.mk (Message.Id message) (Contact.id to)
    (Contact.theirServer to) (time_Unix (Message.Time message))
    time_zero time_zero message.

Definition send (to : Contact.t) (message : Message.t)
    : Cl (option error) :=
  match Marshal_Message message with
  | inl detail => mret (Some (protoError detail))
  | inr messageBytes =>
      if (MaxSerializedMessage <? length messageBytes)%nat
      then mret (Some (errorsNew "message too large"))
      else
        let out := newQueuedMessage to message in
        enqueue out;;
        update (fun c => client.set_outbox (client.outbox c ++ [out]) c);;
        mret None
  end.

(** Modelled from the spec: [client.save] is defined in the disk file,
    which is not part of the sources at hand.  Per the spec, a save hands
    the serialised snapshot to the persistence actor on its channel.  A send
    on a nil channel blocks for ever and a send on a closed one panics. *)
Definition save : Cl unit :=
  ch ← get client.writerChan;
  match ch with
  | openChan => emit [SendState]
  | _ => panic
  end.

(** *** The send click of [composeUI] (lines 1110-1161)

    [inReplyTo] is a pointer to a message of the inbox, given by its index;
    [attachments] is the loop's attachment map; [now] is what
    [time.Now().Unix()] returns.  The round ends after [c.save()]: the
    outbox screen that follows is presentation.  ([println] of the error
    goes to the standard error stream and is not recorded.) *)

(** [for _, contact := range c.contacts { if contact.name == toName ... }];
    names are unique, so the iteration order does not matter. *)
Definition findContact (contacts : gmap N Contact.t) (toName : string)
    : option Contact.t :=
  snd <$> find (fun kv => String.eqb (Contact.name (snd kv)) toName)
               (map_to_list contacts).

Definition contactByName (toName : string) : Cl (option Contact.t) :=
  contacts ← get client.contacts;
  mret (findContact contacts toName).

Definition composeMessage (id : N) (now : Z) (body : string)
    (replyToId : option N) (nextDHPub : bytes)
    (attachments : gmap N Message_Attachment.t) : Message.t :=
  Message.mk id now (list_byte_of_string body) (Some Message_RAW)
             replyToId nextDHPub (attachmentsMapToList (Some attachments)).

(** The body of the record: the text of the "body" view, or a single space
    when that is empty ("Zero length bodies are ACKs"). *)
Definition composeBody (click : Click.t) : string :=
  let body := mapString (Click.textViews click) "body" in
  if (String.length body =? 0)%nat then " " else body.

(** [if inReplyTo != nil { replyToId = inReplyTo.message.Id }] *)
Definition composeReplyToId (inReplyTo : option nat) : Cl (option N) :=
  match inReplyTo with
  | None => mret None
  | Some i =>
      inbox ← get client.inbox;
      msg ← deref (inbox !! i);
      message ← deref (InboxMessage.message msg);
      mret (Some (Message.Id message))
  end.

Definition composeUI_send (inReplyTo : option nat)
    (attachments : gmap N Message_Attachment.t) (click : Click.t) (now : Z)
    : Cl LoopStep :=
  let toName := mapString (Click.combos click) "to" in
  if (String.length toName =? 0)%nat then mret Continue
  else
    to ← contactByName toName ≫= deref;
    let nextDHPub := ScalarBaseMult (Contact.currentDHPrivate to) in
    replyToId ← composeReplyToId inReplyTo;
    let body := composeBody click in
    id ← randId;
    err ← send to (composeMessage id now body replyToId nextDHPub attachments);
    match err with
    | Some err =>
        emit [Errorf ("Error sending message: " +:+ Error err)];;
        mret Continue
    | None =>
        match inReplyTo with
        | None => mret tt
        | Some i =>
            update (fun c => client.set_inbox
                      (alter (InboxMessage.set_acked true) i (client.inbox c)) c)
        end;;
        save;;
        mret (Return (showOutbox id))
    end.

(** *** [sendAck] (lines 1183-1201) and the ack click of [showInbox]
        (lines 1427-1434); [msg] is given by its index in the inbox. *)

Definition ackMessage (id : N) (now : Z) (nextDHPub : bytes)
    (inReplyTo : N) : Message.t :=
  Message.mk id now [] (Some Message_RAW) (Some inReplyTo) nextDHPub [].

Definition sendAck (msg : nat) (now : Z) : Cl unit :=
  inbox ← get client.inbox;
  msg ← deref (inbox !! msg);
  contacts ← get client.contacts;
  to ← deref (contacts !! InboxMessage.from msg);
  let nextDHPub := ScalarBaseMult (Contact.currentDHPrivate to) in
  id ← randId;
  message ← deref (InboxMessage.message msg);
  err ← send to (ackMessage id now nextDHPub (Message.Id message));
  match err with
  | Some err => emit [Errorf ("Error sending message: " +:+ Error err)]
  | None => mret tt
  end.

Definition showInbox_ack (msg : nat) (now : Z) : Cl unit :=
  emit [Act (Sensitive "ack" false); Signal];;
  inbox ← get client.inbox;
  _ ← deref (inbox !! msg);
  update (fun c => client.set_inbox
            (alter (InboxMessage.set_acked true) msg (client.inbox c)) c);;
  sendAck msg now;;
  emit [Act (UIState uiStateInbox); Signal].

(** *** [newContactUI] (lines 1631-1896) *)

(** [&Contact{name: name, isPending: true, id: id}]: every other field has
    its zero value. *)
Definition newContact (name : string) (id : N) : Contact.t :=
  Contact.mk _ id name true [] None None 0%N ""
             (replicate 32 x00) (replicate 32 x00) (replicate 32 x00)
             (replicate 32 x00) (replicate 32 x00) (replicate 32 x00).

(** Lines 1818-1843: what follows the choice of a unique name. *)
Definition newContactUI_create (name : string) : Cl (N * bytes) :=
  id ← randId;
  let contact := newContact name id in
  update (fun c => client.set_contacts (<[id := contact]> (client.contacts c)) c);;
  contactsUI ← get client.contactsUI;
  let '(contactsUI, es) := listUI_Add contactsUI id name "pending" indicatorNone in
  emit es;;
  '(contactsUI, es) ← deref (listUI_Select contactsUI id);
  emit es;;
  update (client.set_contactsUI contactsUI);;
  '(kx, contact) ← newKeyExchange contact;
  update (fun c => client.set_contacts (<[id := contact]> (client.contacts c)) c);;
  let handshake := string_of_list_byte (pem_Encode keyExchangePEM kx) in
  save;;
  emit [Act (SetText "error1" "");
        Act (SetTextView "kxout" handshake);
        Act (Sensitive "name" false);
        Act (Sensitive "create" false);
        Act (Sensitive "kxout" true);
        Act (Sensitive "kxin" true);
        Act (Sensitive "process" true);
        Act (UIState uiStateNewContact2);
        Signal];;
  save;;
  mret (id, kx).

(** Modelled from the spec: [client.unsealMessage] reports success and, on
    success, leaves the decoded record in the message, which stops being
    sealed, and the advanced ratchet in the contact; a failure leaves both
    as they were. *)
Definition unsealMessage (msg : InboxMessage.t) (from : Contact.t)
    : bool * InboxMessage.t * Contact.t :=
  match unseal from (InboxMessage.sealed msg) with
  | Some (message, ratchet) =>
      (true,
       InboxMessage.set_message (Some message) (InboxMessage.set_sealed [] msg),
       Contact.set_ratchet ratchet from)
  | None => (false, msg, from)
  end.

(** The body of the loop of lines 1881-1891 for one message.  [contact] is
    the pointer held by [newContactUI], the contact stored under
    [contactId]. *)
Definition unsealOne (contactId : N) (msg : InboxMessage.t)
    : Cl InboxMessage.t :=
  match InboxMessage.message msg with
  | None =>
      contact ← get client.contacts ≫= (fun m => deref (m !! contactId));
      if (InboxMessage.from msg =? Contact.id contact)%N then
        let '(ok, msg, contact) := unsealMessage msg contact in
        update (fun c =>
          client.set_contacts (<[contactId := contact]> (client.contacts c)) c);;
        inboxUI ← get client.inboxUI;
        discard ← (if ok
                   then message ← deref (InboxMessage.message msg);
                        mret (length (Message.Body message) =? 0)%nat
                   else mret true);
        if discard : bool then
          es ← deref (listUI_Remove inboxUI (InboxMessage.id msg));
          emit es;;
          mret msg
        else
          message ← deref (InboxMessage.message msg);
          let subline := formatShortTime (Message.Time message) in
          emit (listUI_SetSubline inboxUI (InboxMessage.id msg) subline);;
          emit (listUI_SetIndicator inboxUI (InboxMessage.id msg) indicatorBlue);;
          mret msg
      else mret msg
  | Some _ => mret msg
  end.

(** [for _, msg := range c.inbox { ... }]: the messages are pointers, so the
    loop leaves each updated message in its place. *)
Fixpoint unsealAll (contactId : N) (msgs : list InboxMessage.t)
    : Cl (list InboxMessage.t) :=
  match msgs with
  | [] => mret []
  | msg :: msgs =>
      msg ← unsealOne contactId msg;
      msgs ← unsealAll contactId msgs;
      mret (msg :: msgs)
  end.

(** Lines 1878-1895: what follows a successful [processKeyExchange];
    [contact] is the pointer held by [newContactUI], the contact stored
    under [contactId]. *)
Definition newContactUI_finish (contactId : N) : Cl LoopStep :=
  contact ← get client.contacts ≫= (fun m => deref (m !! contactId));
  update (fun c => client.set_contacts
            (<[contactId := Contact.set_isPending false contact]>
               (client.contacts c)) c);;
  inbox ← get client.inbox;
  inbox ← unsealAll contactId inbox;
  update (client.set_inbox inbox);;
  contactsUI ← get client.contactsUI;
  emit (listUI_SetSubline contactsUI (Contact.id contact) "");;
  save;;
  mret (Return (showContact (Contact.id contact))).

(** Lines 1852-1876 and on: a click on "process" with the text of the
    "kxin" view.  [contact] is the pointer [c.contacts[contactId]]. *)
Definition newContactUI_process (contactId : N) (click : Click.t)
    : Cl LoopStep :=
  contact ← get client.contacts ≫= (fun m => deref (m !! contactId));
  testing ← get client.testing;
  let kxin := mapString (Click.textViews click) "kxin" in
  let noBlock :=
    let errText := "No key exchange message found!" in
    emit [Act (SetText "error2" errText);
          Act (UIError (errorsNew errText)); Signal];;
    mret Continue in
  match pem_Decode (list_byte_of_string kxin) with
  | None => noBlock
  | Some (blockType, blockBytes) =>
      if negb (String.eqb blockType keyExchangePEM) then noBlock
      else
        let '(contact, r) := processKeyExchange blockBytes testing contact in
        update (fun c =>
          client.set_contacts (<[contactId := contact]> (client.contacts c)) c);;
        match r with
        | inl err =>
            emit [Act (SetText "error2" (Error err));
                  Act (UIError err); Signal];;
            mret Continue
        | inr _ => newContactUI_finish contactId
        end
  end.

(** *** [Shutdown] and [ShutdownAndSuspend] (lines 2277-2294)

    [close] of a nil or closed channel panics; a receive from a nil channel
    blocks for ever. *)

Definition isNil (ch : chan) : bool :=
  match ch with nilChan => true | _ => false end.

Definition close (ch : client.t -> chan)
    (set : chan -> client.t -> client.t) (e : Effect) : Cl unit :=
  st ← get ch;
  match st with
  | openChan => update (set closedChan);; emit [e]
  | _ => panic
  end.

Definition Shutdown : Cl unit :=
  writerChan ← get client.writerChan;
  (if negb (isNil writerChan) then
     close client.writerChan client.set_writerChan CloseWriterChan;;
     writerDone ← get client.writerDone;
     if isNil writerDone then panic else emit [RecvWriterDone]
   else mret tt);;
  fetchNowChan ← get client.fetchNowChan;
  if negb (isNil fetchNowChan) then
    close client.fetchNowChan client.set_fetchNowChan CloseFetchNowChan
  else mret tt.

(** The final [select {}] never returns; the model records it as the last
    effect and returns the state in which the goroutine stays parked. *)
Definition ShutdownAndSuspend : Cl unit :=
  writerChan ← get client.writerChan;
  (if negb (isNil writerChan) then save else mret tt);;
  Shutdown;;
  close client.uiActions client.set_uiActions CloseActions;;
  emit [Park].

End Client.

(** ** The handshake as the specification words it

    The error classes of the specification and its eight steps, "each a
    hard validation gate that fails the whole operation on first
    violation". *)

Inductive HandshakeError : Type :=
| MalformedHandshake
| InvalidPublicKey
| InvalidSignature
| InvalidAddress
| InvalidGroupCredential
| InvalidDHValue.

(** The class of an error value that [processKeyExchange] can return. *)
Definition errorClass (e : error) : option HandshakeError :=
  match e with
  | protoError _ => Some MalformedHandshake
  | serverError _ => Some InvalidAddress
  | errorsNew msg =>
      if String.eqb msg "invalid signature length" then Some MalformedHandshake
      else if String.eqb msg "invalid public key" then Some InvalidPublicKey
      else if String.eqb msg "invalid signature" then Some InvalidSignature
      else if String.eqb msg "invalid group" then Some InvalidGroupCredential
      else if String.eqb msg "invalid group key" then Some InvalidGroupCredential
      else if String.eqb msg "invalid public identity" then Some InvalidPublicKey
      else if String.eqb msg "invalid public DH value" then Some InvalidDHValue
      else None
  end.

Section HandshakeSpec.
Context `{Proto} `{Ed25519} `{Bbssig} `{ServerAddress}.

(** The first violated gate of [ApplyHandshake], or [None] when the bytes
    pass all of them. *)
Definition ApplyHandshake_violation (handshake : bytes) (testing : bool)
    : option HandshakeError :=
  (* 1. outer envelope, and the length of its signature *)
  match Unmarshal_SignedKeyExchange handshake with
  | inl _ => Some MalformedHandshake
  | inr envelope =>
  let payloadBytes := SignedKeyExchange.Signed envelope in
  let signature := SignedKeyExchange.Signature envelope in
  if negb (length signature =? 64)%nat then Some MalformedHandshake else
  (* 2. inner payload *)
  match Unmarshal_KeyExchange payloadBytes with
  | inl _ => Some MalformedHandshake
  | inr payload =>
  (* 3. the claimed public key, taken from the payload *)
  let key := KeyExchange.PublicKey payload in
  if negb (length key =? 32)%nat then Some InvalidPublicKey else
  (* 4. the signature, against the extracted key *)
  if negb (Verify key payloadBytes signature) then Some InvalidSignature else
  (* 5. server address *)
  match parseServer (KeyExchange.Server payload) testing with
  | inl _ => Some InvalidAddress
  | inr _ =>
  (* 6. group descriptor and member credential *)
  match Group_Unmarshal (KeyExchange.Group payload) with
  | None => Some InvalidGroupCredential
  | Some group =>
  if negb (snd (MemberKey_Unmarshal group (KeyExchange.GroupKey payload)))
  then Some InvalidGroupCredential else
  (* 7. public identity value and DH public value *)
  if negb (length (KeyExchange.IdentityPublic payload) =? 32)%nat
  then Some InvalidPublicKey else
  if negb (length (KeyExchange.Dh payload) =? 32)%nat
  then Some InvalidDHValue else
  (* 8. the generation number is recorded; nothing is left to fail *)
  None
  end end end end.

End HandshakeSpec.

(** ** What the imported packages promise

    The properties of the libraries that the handshake relies on: what
    [Marshal] writes [Unmarshal] reads back, a signature made with a
    generated private key verifies under its public key, and the fixed
    array sizes of the Go signatures. *)
Class Contracts `{Proto} `{Ed25519} `{Curve25519} `{Bbssig} : Prop := {
  Unmarshal_Marshal_KeyExchange : forall kx b,
    Marshal_KeyExchange kx = inr b -> Unmarshal_KeyExchange b = inr kx;
  Unmarshal_Marshal_SignedKeyExchange : forall kxs b,
    Marshal_SignedKeyExchange kxs = inr b ->
    Unmarshal_SignedKeyExchange b = inr kxs;
  GenerateKey_public_length : forall r pub priv r',
    GenerateKey r = inr (pub, priv, r') -> length pub = 32%nat;
  Sign_length : forall priv m, length (Sign priv m) = 64%nat;
  Verify_Sign : forall r pub priv r' m,
    GenerateKey r = inr (pub, priv, r') -> Verify pub m (Sign priv m) = true;
  ScalarBaseMult_length : forall s, length (ScalarBaseMult s) = 32%nat;
  Group_Unmarshal_Marshal : forall g,
    Group_Unmarshal (Group_Marshal g) = Some g;
  MemberKey_Unmarshal_Marshal : forall k,
    MemberKey_Unmarshal (MemberKey_Group k) (MemberKey_Marshal k)
    = (Some k, true);
}.

(** ** Reference instances of the imported packages

    Small executable stand-ins for the libraries, on which the model can be
    run: a transparent field-by-field codec for the key exchange records,
    the protobuf wire format for messages, and keyed checksums in place of
    the cryptography.  They satisfy [Contracts]; nothing here is meant to be
    secure. *)

Module Ref.

Definition byteN (n : N) : byte := default x00 (Byte.of_N n).

Fixpoint bytes_eqb (a b : bytes) : bool :=
  match a, b with
  | [], [] => true
  | x :: a, y :: b => Byte.eqb x y && bytes_eqb a b
  | _, _ => false
  end.

(** *** A codec for the key exchange records: every byte of a field is
        preceded by a 1 and the field is closed by a 0. *)

Fixpoint putField (f : bytes) : bytes :=
  match f with
  | [] => [x00]
  | b :: f => x01 :: b :: putField f
  end.

Fixpoint getField (bs : bytes) : option (bytes * bytes) :=
  match bs with
  | x00 :: rest => Some ([], rest)
  | x01 :: b :: rest =>
      match getField rest with
      | Some (f, rest) => Some (b :: f, rest)
      | None => None
      end
  | _ => None
  end.

Definition putN (n : N) : bytes := putField (replicate (N.to_nat n) x01).

Definition getN (bs : bytes) : option (N * bytes) :=
  '(f, rest) ← getField bs; Some (N.of_nat (length f), rest).

Definition marshalKeyExchange (kx : KeyExchange.t) : bytes :=
  putField (KeyExchange.PublicKey kx)
  ++ putField (KeyExchange.IdentityPublic kx)
  ++ putField (list_byte_of_string (KeyExchange.Server kx))
  ++ putField (KeyExchange.Dh kx)
  ++ putField (KeyExchange.Group kx)
  ++ putField (KeyExchange.GroupKey kx)
  ++ putN (KeyExchange.Generation kx).

Definition unmarshalKeyExchange (bs : bytes) : option KeyExchange.t :=
  '(publicKey, bs) ← getField bs;
  '(identityPublic, bs) ← getField bs;
  '(server, bs) ← getField bs;
  '(dh, bs) ← getField bs;
  '(group, bs) ← getField bs;
  '(groupKey, bs) ← getField bs;
  '(generation, bs) ← getN bs;
  match bs with
  | [] => Some (KeyExchange.mk publicKey identityPublic
                  (string_of_list_byte server) dh group groupKey generation)
  | _ => None
  end.

Definition marshalSignedKeyExchange (kxs : SignedKeyExchange.t) : bytes :=
  putField (SignedKeyExchange.Signed kxs)
  ++ putField (SignedKeyExchange.Signature kxs).

Definition unmarshalSignedKeyExchange (bs : bytes)
    : option SignedKeyExchange.t :=
  '(signed, bs) ← getField bs;
  '(signature, bs) ← getField bs;
  match bs with
  | [] => Some (SignedKeyExchange.mk signed signature)
  | _ => None
  end.

Definition orMalformed {A} (what : string) (o : option A) : string + A :=
  match o with
  | Some a => inr a
  | None => inl ("malformed " +:+ what)
  end.

(** *** Messages in protobuf wire format

    Modelled from the spec: the message schema belongs to the protos
    package, which is not part of the sources at hand.  The fields are
    those the spec lists for the message record (id, timestamp, body, body
    encoding tag, sender's next DH public value, optional in-reply-to id,
    attachments with name and bytes), numbered in that order and written in
    protobuf wire format: integers as base-128 varints, byte strings and
    embedded messages with a length prefix. *)

Fixpoint varint_go (fuel : nat) (n : N) : bytes :=
  match fuel with
  | O => []
  | S fuel =>
      if (n <? 128)%N then [byteN n]
      else byteN (128 + n mod 128) :: varint_go fuel (n / 128)
  end.

(** Ten groups of seven bits hold any 64-bit value. *)
Definition varint (n : N) : bytes := varint_go 10 n.

(** An [int64] is written as its two's complement 64-bit pattern. *)
Definition uint64_of_int64 (z : Z) : N := Z.to_N (z mod 2 ^ 64).

Definition key (field wireType : N) : bytes := varint (field * 8 + wireType).

Definition varintField (field n : N) : bytes := key field 0 ++ varint n.

Definition bytesField (field : N) (b : bytes) : bytes :=
  key field 2 ++ varint (N.of_nat (length b)) ++ b.

Definition marshalAttachment (a : Message_Attachment.t) : bytes :=
  bytesField 1 (list_byte_of_string (Message_Attachment.Filename a))
  ++ bytesField 2 (Message_Attachment.Contents a).

Definition encodingNumber (e : Message_Encoding) : N :=
  match e with Message_RAW => 0 | Message_GZIP => 1 end.

Definition marshalMessage (m : Message.t) : bytes :=
  varintField 1 (Message.Id m)
  ++ varintField 2 (uint64_of_int64 (Message.Time m))
  ++ bytesField 3 (Message.Body m)
  ++ match Message.BodyEncoding m with
     | Some e => varintField 4 (encodingNumber e)
     | None => []
     end
  ++ bytesField 5 (Message.MyNextDh m)
  ++ match Message.InReplyTo m with
     | Some id => varintField 6 id
     | None => []
     end
  ++ flat_map (fun a => bytesField 7 (marshalAttachment a)) (Message.Files m).

Definition proto : Proto := {|
  MaxSerializedMessage := 16384;
  Marshal_SignedKeyExchange kxs := inr (marshalSignedKeyExchange kxs);
  Unmarshal_SignedKeyExchange bs :=
    orMalformed "SignedKeyExchange" (unmarshalSignedKeyExchange bs);
  Marshal_KeyExchange kx := inr (marshalKeyExchange kx);
  Unmarshal_KeyExchange bs :=
    orMalformed "KeyExchange" (unmarshalKeyExchange bs);
  Marshal_Message m := inr (marshalMessage m);
|}.

(** *** Stand-ins for the cryptography *)

(** A one-byte checksum of the message, repeated to 32 bytes. *)
Definition digest (m : bytes) : bytes :=
  replicate 32
    (byteN (fold_right (fun b acc => (Byte.to_N b + acc) mod 256)%N 0%N m)).

(** The private key is the 32-byte seed followed by the public key, as in
    the Go package; here the public key is the seed itself. *)
Definition ed25519 : Ed25519 := {|
  GenerateKey r :=
    if (32 <=? length r)%nat
    then inr (take 32 r, take 32 r ++ take 32 r, drop 32 r)
    else inl "short read";
  Sign priv m := resize 32 x00 (drop 32 priv) ++ digest m;
  Verify pub m sig := bytes_eqb sig (resize 32 x00 pub ++ digest m);
|}.

Definition curve25519 : Curve25519 := {|
  ScalarBaseMult s := resize 32 x00 (reverse s);
|}.

(** A group is a byte string; a member key is its group and four bytes. *)
Definition bbssig : Bbssig := {|
  Group := bytes;
  MemberKey := bytes * bytes;
  PrivateKey := bytes;
  Group_Marshal g := x01 :: g;
  Group_Unmarshal b := match b with x01 :: g => Some g | _ => None end;
  MemberKey_Group k := fst k;
  MemberKey_Marshal k := x02 :: snd k;
  MemberKey_Unmarshal g b :=
    match b with x02 :: k => (Some (g, k), true) | _ => (None, false) end;
  NewMember priv r :=
    if (4 <=? length r)%nat then inr ((priv, take 4 r), drop 4 r)
    else inl "short read";
|}.

Definition serverAddress : ServerAddress := {|
  parseServer address testing :=
    if String.prefix "pondserver://" address then inr (address, [])
    else inl "bad URL scheme";
|}.

(** A block is its type, a newline, and its bytes. *)
Fixpoint splitLine (bs : bytes) : option (bytes * bytes) :=
  match bs with
  | [] => None
  | x0a :: rest => Some ([], rest)
  | b :: bs =>
      match splitLine bs with
      | Some (line, rest) => Some (b :: line, rest)
      | None => None
      end
  end.

Definition pem : Pem := {|
  pem_Decode bs :=
    '(blockType, blockBytes) ← splitLine bs;
    Some (string_of_list_byte blockType, blockBytes);
  pem_Encode blockType blockBytes :=
    list_byte_of_string blockType ++ x0a :: blockBytes;
|}.

Definition timeFormat : TimeFormat := {|
  formatShortTime sec := pretty sec;
|}.

#[export] Existing Instances proto ed25519 curve25519 bbssig serverAddress.
#[export] Existing Instances pem timeFormat.

(** A sealed message is a 1 followed by the body; anything else fails to
    unseal.  The ratchet is left alone. *)
Definition sealing : Sealing := {|
  unseal from sealedBytes :=
    match sealedBytes with
    | x01 :: body =>
        Some (Message.mk 1 0 body (Some Message_RAW) None
                (Contact.theirCurrentDHPublic from) [], Contact.ratchet from)
    | _ => None
    end;
|}.

#[export] Existing Instance sealing.

(** *** Two clients and their data *)

Definition emptyList (vboxName : string) : listUI.t :=
  listUI.mk vboxName [] 0 0.

(** A started client: keys as [GenerateKey] makes them from [seed], all
    channels made, nothing in the lists, and [rand] still to be read. *)
Definition startedClient (server : string) (seed : byte) (rand : bytes)
    : client.t :=
  client.mk _ true server (replicate 32 seed) (replicate 32 seed)
    (Some [seed]) 0
    (replicate 32 seed ++ replicate 32 seed) (replicate 32 seed)
    rand openChan openChan openChan openChan
    (emptyList "inboxVbox") (emptyList "outboxVbox")
    (emptyList "contactsVbox") (emptyList "clientVbox")
    [] ∅ [] [] [].

(** [n] bytes counting up from [start]. *)
Definition countUp (start : N) (n : nat) : bytes :=
  map (fun i => byteN (start + N.of_nat i)) (seq 0 n).

Definition alice : client.t :=
  startedClient "pondserver://alice@example.onion" x0a (countUp 1 44).

Definition bob : client.t :=
  startedClient "pondserver://bob@example.onion" x0b (countUp 101 44).

End Ref.

(** ** Vocabulary of the properties *)

(** The step of the specification's [ApplyHandshake] at which an error of
    [processKeyExchange] arises (a protobuf error arises at step 1 or 2). *)
Definition errorStep (e : error) : nat :=
  match e with
  | protoError _ => 2
  | serverError _ => 5
  | errorsNew msg =>
      if String.eqb msg "invalid signature length" then 1
      else if String.eqb msg "invalid public key" then 3
      else if String.eqb msg "invalid signature" then 4
      else if String.eqb msg "invalid group" then 6
      else if String.eqb msg "invalid group key" then 6
      else if String.eqb msg "invalid public identity" then 7
      else if String.eqb msg "invalid public DH value" then 7
      else 0
  end.


(** A message that the loop at the end of [newContactUI] picks up: still
    sealed, and sent by the contact. *)
Definition pendingFrom (contactId : N) (msg : InboxMessage.t) : bool :=
  match InboxMessage.message msg with
  | None => (InboxMessage.from msg =? contactId)%N
  | Some _ => false
  end.

(** The entry of message [id] is taken off the list [ui] by the actions
    [shown]; it is marked as new by them. *)
Definition removedFromList (ui : listUI.t) (shown : list Effect) (id : N)
    : Prop :=
  exists entry,
    listUI_find ui id = Some entry
    /\ Act (Destroy (listItem.sepName entry)) ∈ shown
    /\ Act (Destroy (listItem.boxName entry)) ∈ shown.

Definition markedNew (ui : listUI.t) (shown : list Effect) (id : N) : Prop :=
  exists entry,
    listUI_find ui id = Some entry
    /\ Act (SetImage (listItem.imageName entry) indicatorBlue) ∈ shown.

Section Outcomes.
Context `{Bbssig} `{!Sealing}.

(** [contact'] is [contact] with, at most, its ratchet advanced. *)
Definition sameButRatchet (contact contact' : Contact.t) : Prop :=
  contact' = Contact.set_ratchet (Contact.ratchet contact') contact.

(** What the loop makes of one picked-up message [msg]: either it was
    unsealed, under some state [from] of the contact's ratchet, and holds
    the decoded record, shown as new when the body is not empty and taken
    off the list when it is; or unsealing failed, and the message is as it
    was, still sealed, and taken off the list. *)
Definition unsealOutcome (ui : listUI.t) (shown : list Effect)
    (msg msg' : InboxMessage.t) : Prop :=
  (exists (from : Contact.t) message ratchet,
     unseal from (InboxMessage.sealed msg) = Some (message, ratchet)
     /\ msg' = InboxMessage.set_message (Some message)
                 (InboxMessage.set_sealed [] msg)
     /\ (Message.Body message = [] ->
         removedFromList ui shown (InboxMessage.id msg))
     /\ (Message.Body message <> [] ->
         markedNew ui shown (InboxMessage.id msg)))
  \/ (exists from : Contact.t,
        unseal from (InboxMessage.sealed msg) = None
        /\ msg' = msg
        /\ removedFromList ui shown (InboxMessage.id msg)).

End Outcomes.

Section States.
Context `{Bbssig}.

(** The client [c] once [contact] has been stored under [contactId] and the
    effects [es] have been added. *)
Definition withContact (contactId : N) (contact : Contact.t)
    (es : list Effect) (c : client.t) : client.t :=
  client.set_effects (client.effects c ++ es)
    (client.set_contacts (<[contactId := contact]> (client.contacts c)) c).

(** The client [c] once [out] has been appended to the queue and to the
    outbox, with [r'] left of the random source. *)
Definition withQueued (out : queuedMessage.t) (r' : bytes) (c : client.t)
    : client.t :=
  client.set_outbox (client.outbox c ++ [out])
    (client.set_queue (client.queue c ++ [out]) (client.set_rand r' c)).

(** Every message that the loop would pick up has an entry in the inbox
    list of the UI. *)
Definition pendingListed (ui : listUI.t) (contactId : N)
    (msgs : list InboxMessage.t) : Prop :=
  Forall (fun msg => pendingFrom contactId msg = true ->
                     is_Some (listUI_find ui (InboxMessage.id msg))) msgs.

End States.

(** [replyToId] is the reply reference that [composeUI] takes from the
    message it replies to, if any. *)
Definition replyReference (inbox : list InboxMessage.t)
    (inReplyTo : option nat) (replyToId : option N) : Prop :=
  match inReplyTo with
  | None => replyToId = None
  | Some i =>
      exists msg message,
        inbox !! i = Some msg
        /\ InboxMessage.message msg = Some message
        /\ replyToId = Some (Message.Id message)
  end.

(** The inbox once the message replied to, if any, is marked acked. *)
Definition markAcked (i : option nat) (inbox : list InboxMessage.t)
    : list InboxMessage.t :=
  match i with
  | None => inbox
  | Some i => alter (InboxMessage.set_acked true) i inbox
  end.

(** In the effects [es], a wait for the writer ([RecvWriterDone]) lies
    between a save ([SendState]) and the closing of the writer's channel:
    the order in which the specification describes shutdown. *)
Definition isCloseWriterChan (e : Effect) : bool :=
  match e with CloseWriterChan => true | _ => false end.

Fixpoint waitsBeforeClose (es : list Effect) : bool :=
  match es with
  | [] => false
  | RecvWriterDone :: es => existsb isCloseWriterChan es
  | CloseWriterChan :: _ => false
  | _ :: es => waitsBeforeClose es
  end.

Fixpoint awaitsWriteBeforeClosing (es : list Effect) : bool :=
  match es with
  | [] => false
  | SendState :: es => waitsBeforeClose es || awaitsWriteBeforeClosing es
  | _ :: es => awaitsWriteBeforeClosing es
  end.

(** ** Scenarios on the reference instances *)

Module Scenario.
Import Ref.

(** Alice's handshake for Bob, and the same envelope with the server name
    in the signed payload replaced (the signature is the original one). *)
Definition alicesBob : Contact.t := newContact "bob" 3.

Definition aliceExchange : option (bytes * Contact.t * client.t) :=
  newKeyExchange alicesBob alice.

Definition aliceHandshake : bytes :=
  match aliceExchange with
  | Some (kx, _, _) => kx
  | None => []
  end.

Definition alicesBobAfter : Contact.t :=
  match aliceExchange with
  | Some (_, contact, _) => contact
  | None => alicesBob
  end.

Definition aliceAfter : client.t :=
  match aliceExchange with
  | Some (_, _, c) => c
  | None => alice
  end.

Definition tamperedHandshake : bytes :=
  match unmarshalSignedKeyExchange aliceHandshake with
  | Some kxs =>
      match unmarshalKeyExchange (SignedKeyExchange.Signed kxs) with
      | Some kx =>
          let kx := KeyExchange.mk
                      (KeyExchange.PublicKey kx) (KeyExchange.IdentityPublic kx)
                      "pondserver://mallory@example.onion"
                      (KeyExchange.Dh kx) (KeyExchange.Group kx)
                      (KeyExchange.GroupKey kx) (KeyExchange.Generation kx) in
          marshalSignedKeyExchange
            (SignedKeyExchange.mk (marshalKeyExchange kx)
                                  (SignedKeyExchange.Signature kxs))
      | None => []
      end
  | None => []
  end.

(** Bob's pending contact for Alice, before anything is applied to it. *)
Definition bobsAlice : Contact.t := newContact "alice" 7.

(** Bob with that contact, and with three sealed messages from it in the
    inbox and in the inbox list: one that does not unseal, one that unseals
    to an empty body, one that unseals to "hello". *)
Definition sealedMessage (id : N) (sealedBytes : bytes) : InboxMessage.t :=
  InboxMessage.mk id false (time_Unix 1371859200) 7 sealedBytes false None.

Definition mailbox : list InboxMessage.t :=
  [sealedMessage 11 [x00];
   sealedMessage 12 [x01];
   sealedMessage 13 (x01 :: list_byte_of_string "hello")].

Definition inboxList : listUI.t :=
  fold_left (fun ui msg =>
               fst (listUI_Add ui (InboxMessage.id msg) "alice" "pending"
                      indicatorNone))
            mailbox (emptyList "inboxVbox").

Definition bobWithMail : client.t :=
  client.set_inbox mailbox
    (client.set_inboxUI inboxList
       (client.set_contacts {[ 7%N := bobsAlice ]} bob)).

(** The click on "process" with an armoured handshake in the "kxin" view. *)
Definition processClick (handshake : bytes) : Click.t :=
  Click.mk "process" ∅
    {[ "kxin" := string_of_list_byte (pem_Encode keyExchangePEM handshake) ]}
    ∅.

(** Carol has Alice as an established contact; her random source yields
    the ids 1 and 2. *)
Definition carolsAlice : Contact.t :=
  Contact.set_ratchet
    (Ratchet.mk (countUp 1 32) (countUp 33 32) (countUp 65 32) (countUp 97 32))
    (Contact.set_isPending false (newContact "alice" 7)).

Definition carol : client.t :=
  client.set_contacts {[ 7%N := carolsAlice ]}
    (startedClient "pondserver://carol@example.onion" x0c
       [x01; x00; x00; x00; x00; x00; x00; x00;
        x02; x00; x00; x00; x00; x00; x00; x00]).

(** The click on "send" with [body] typed, addressed to Alice. *)
Definition sendClick (body : string) : Click.t :=
  Click.mk "send" ∅ {[ "body" := body ]} {[ "to" := "alice" ]}.

Definition longBody (n : nat) : string :=
  string_of_list_byte (replicate n "a"%byte).

(** Two messages composed one after the other: the id and the DH public
    value of each outbox record. *)
Definition twoComposed : option (list (N * bytes)) :=
  '(_, c) ← composeUI_send None ∅ (sendClick "hi") 1371859200 carol;
  '(_, c) ← composeUI_send None ∅ (sendClick "again") 1371859260 c;
  Some ((fun out => (queuedMessage.id out,
                     Message.MyNextDh (queuedMessage.message out)))
        <$> client.outbox c).

Definition carolAfterHi : client.t :=
  match composeUI_send None ∅ (sendClick "hi") 1371859200 carol with
  | Some (_, c) => c
  | None => carol
  end.

(** Carol with a decoded message from Alice in her inbox. *)
Definition carolWithMail : client.t :=
  client.set_inbox
    [InboxMessage.mk 21 true (time_Unix 1371859200) 7 [] false
       (Some (Message.mk 99 1371859100 (list_byte_of_string "hello")
                (Some Message_RAW) None (countUp 97 32) []))]
    carol.

(** Dave's random source repeats itself: the eight bytes of an id, then
    the thirty-six bytes that a key exchange consumes, twice over. *)
Definition dave : client.t :=
  startedClient "pondserver://dave@example.onion" x0d
    (([x05; x00; x00; x00; x00; x00; x00; x00] ++ countUp 1 36)
     ++ ([x05; x00; x00; x00; x00; x00; x00; x00] ++ countUp 1 36)).

(** Two contacts created one after the other: their ids, and the names of
    the contacts in the map afterwards. *)
Definition twoContacts : option (N * N * list string) :=
  '(id1, _, c) ← newContactUI_create "bob" dave;
  '(id2, _, c) ← newContactUI_create "erin" c;
  Some (id1, id2,
        (fun kv => Contact.name (snd kv)) <$> map_to_list (client.contacts c)).

End Scenario.

(** ** More of client.go

    The parts of the file that the functions above call or are called
    from: the rest of [listUI], the first loop of [newContactUI], the lists
    that [mainUI] builds, the lookup of [showInbox], [indicator], and the
    test of [nextEvent]. *)

(** *** [listUI.Event] and [listUI.Deselect] (lines 579-589, 680-697) *)

(** [Event] for a click: the id of the first entry whose box has the
    click's name ([(0, false)] in the source when there is none). *)
Definition listUI_Event (cs : listUI.t) (click : Click.t) : option N :=
  listItem.id
    <$> find (fun entry => String.eqb (Click.name click) (listItem.boxName entry))
             (listUI.entries cs).

Definition listUI_Deselect (cs : listUI.t) : listUI.t * list Effect :=
  if (listUI.selected cs =? 0)%N then (cs, [])
  else
    let currentlySelected :=
      match listUI_find cs (listUI.selected cs) with
      | Some entry => listItem.boxName entry
      | None => ""
      end in
    (listUI.set_selected 0 cs,
     [Act (SetBackground currentlySelected colorGray); Signal]).

(** *** [queuedMessage.indicator] (lines 1166-1174) *)

Definition time_IsZero (t : time_Time) : bool :=
  match t with time_zero => true | time_Unix _ => false end.

Definition queuedMessage_indicator (qm : queuedMessage.t) : Indicator :=
  if negb (time_IsZero (queuedMessage.acked qm)) then indicatorGreen
  else if negb (time_IsZero (queuedMessage.sent qm)) then indicatorYellow
  else indicatorRed.

(** [t.Unix()]: the zero [time.Time] is January 1 of year 1. *)
Definition time_Unix_of (t : time_Time) : Z :=
  match t with
  | time_zero => (-62135596800)%Z
  | time_Unix sec => sec
  end.

(** How one turn of the first loop of [newContactUI] ends: the event goes
    back to [mainUI], the loop goes on, or a contact has been created with
    this id and handshake. *)
Inductive NameStep : Type :=
| nameReturn (event : Click.t)
| nameContinue
| nameCreated (id : N) (kx : bytes).

(** What a click leads [mainUI] to (lines 522-560): the screen it opens. *)
Inductive Dispatch : Type :=
| openInbox (id : N)
| openOutbox (id : N)
| openContact (id : N)
| openIdentity
| openLog
| openNewContact
| openCompose
| noScreen.

Definition clientUIIdentity : N := 1.
Definition clientUIActivity : N := 2.

Section ClientUI.
Context `{Bbssig}.

(** [c.clientUI = v] *)
Definition set_clientUI (v : listUI.t) (c : client.t) : client.t :=
  client.mk _ (client.testing c) (client.server c) (client.identity c)
    (client.identityPublic c) (client.groupPriv c) (client.generation c)
    (client.priv c) (client.pub c) (client.rand c) (client.writerChan c)
    (client.writerDone c) (client.fetchNowChan c) (client.uiActions c)
    (client.inboxUI c) (client.outboxUI c) (client.contactsUI c) v
    (client.outbox c) (client.contacts c) (client.inbox c) (client.queue c)
    (client.effects c).

End ClientUI.

Section MoreClient.
Context `{Proto} `{Ed25519} `{Curve25519} `{Bbssig} `{ServerAddress}.
Context `{Pem} `{TimeFormat} `{!Sealing}.

(** *** The test of [nextEvent] (lines 1915-1930), for a click *)
Definition nextEvent_wanted (c : client.t) (click : Click.t) : bool :=
  bool_decide (is_Some (listUI_Event (client.contactsUI c) click))
  || bool_decide (is_Some (listUI_Event (client.outboxUI c) click))
  || bool_decide (is_Some (listUI_Event (client.inboxUI c) click))
  || bool_decide (is_Some (listUI_Event (client.clientUI c) click))
  || String.eqb (Click.name click) "newcontact"
  || String.eqb (Click.name click) "compose".

(** *** The first loop of [newContactUI] (lines 1785-1816) *)

(** [for _, contact := range c.contacts { if contact.name == name ... } }]:
    whether some contact has the name. *)
Definition nameInUse (contacts : gmap N Contact.t) (name : string) : bool :=
  existsb (fun kv => String.eqb (Contact.name (snd kv)) name)
          (map_to_list contacts).

(** One event of that loop, a click, with what follows the loop when the
    name is free (lines 1818-1843). *)
Definition newContactUI_nameClick (click : Click.t) : Cl NameStep :=
  c ← get (fun c => c);
  if nextEvent_wanted c click then mret (nameReturn click)
  else if negb (String.eqb (Click.name click) "create")
          && negb (String.eqb (Click.name click) "name")
  then mret nameContinue
  else
    let name := mapString (Click.entries click) "name" in
    if nameInUse (client.contacts c) name then
      let errText := "A contact by that name already exists!" in
      emit [Act (SetText "error1" errText);
            Act (UIError (errorsNew errText)); Signal];;
      mret nameContinue
    else
      '(id, kx) ← newContactUI_create name;
      mret (nameCreated id kx).

(** *** The lists of [mainUI] (lines 452-509) *)

(** [for id, contact := range c.contacts { ... c.contactsUI.Add(...) }], in
    the order of [map_to_list]. *)
Definition mainUI_contacts (contacts : gmap N Contact.t)
    : listUI.t * list Effect :=
  fold_left
    (fun '(cs, es) '(id, contact) =>
       let subline := if Contact.isPending contact then "pending" else "" in
       let '(cs, es') :=
         listUI_Add cs id (Contact.name contact) subline indicatorNone in
       (cs, es ++ es'))
    (map_to_list contacts)
    (listUI.mk "contactsVbox" [] 0 0, []).

(** [for _, msg := range c.inbox { ... }]: a decoded message with an empty
    body is passed over; [c.contacts[msg.from].name] panics when the sender
    is not a contact. *)
Fixpoint mainUI_inbox (contacts : gmap N Contact.t)
    (msgs : list InboxMessage.t) (cs : listUI.t)
    : option (listUI.t * list Effect) :=
  match msgs with
  | [] => Some (cs, [])
  | msg :: msgs =>
      let add subline i :=
        contact ← contacts !! InboxMessage.from msg;
        let '(cs, es) :=
          listUI_Add cs (InboxMessage.id msg) (Contact.name contact)
            subline i in
        '(cs, es') ← mainUI_inbox contacts msgs cs;
        Some (cs, es ++ es') in
      match InboxMessage.message msg with
      | None => add "pending" indicatorNone
      | Some message =>
          if (length (Message.Body message) =? 0)%nat
          then mainUI_inbox contacts msgs cs
          else add (formatShortTime (Message.Time message))
                   (if negb (InboxMessage.read msg) then indicatorBlue
                    else indicatorNone)
      end
  end.

(** [for _, msg := range c.outbox { if len(msg.message.Body) > 0 { ... } }] *)
Fixpoint mainUI_outbox (contacts : gmap N Contact.t)
    (msgs : list queuedMessage.t) (cs : listUI.t)
    : option (listUI.t * list Effect) :=
  match msgs with
  | [] => Some (cs, [])
  | msg :: msgs =>
      if (0 <? length (Message.Body (queuedMessage.message msg)))%nat then
        let subline :=
          formatShortTime (time_Unix_of (queuedMessage.created msg)) in
        contact ← contacts !! queuedMessage.to msg;
        let '(cs, es) :=
          listUI_Add cs (queuedMessage.id msg) (Contact.name contact)
            subline (queuedMessage_indicator msg) in
        '(cs, es') ← mainUI_outbox contacts msgs cs;
        Some (cs, es ++ es')
      else mainUI_outbox contacts msgs cs
  end.

(** Lines 452-509 as a step of the goroutine. *)
Definition mainUI_lists : Cl unit :=
  c ← get (fun c => c);
  let '(contactsUI, es) := mainUI_contacts (client.contacts c) in
  update (client.set_contactsUI contactsUI);; emit es;;
  '(inboxUI, es) ← deref (mainUI_inbox (client.contacts c) (client.inbox c)
                            (listUI.mk "inboxVbox" [] 0 0));
  update (client.set_inboxUI inboxUI);; emit es;;
  '(outboxUI, es) ← deref (mainUI_outbox (client.contacts c) (client.outbox c)
                             (listUI.mk "outboxVbox" [] 0 0));
  update (client.set_outboxUI outboxUI);; emit es;;
  let '(clientUI, es1) :=
    listUI_Add (listUI.mk "clientVbox" [] 0 0) clientUIIdentity "Identity" ""
      indicatorNone in
  let '(clientUI, es2) :=
    listUI_Add clientUI clientUIActivity "Activity Log" "" indicatorNone in
  update (set_clientUI clientUI);; emit (es1 ++ es2).

(** *** The lookup of [showInbox] (lines 1203-1218): the index of the
        message shown. *)
Definition showInbox_open (id : N) : Cl nat :=
  inbox ← get client.inbox;
  '(i, msg) ← deref (list_find (fun msg => InboxMessage.id msg = id) inbox);
  match InboxMessage.message msg with
  | Some _ =>
      if negb (InboxMessage.read msg) then
        update (fun c => client.set_inbox
                  (alter (InboxMessage.set_read true) i (client.inbox c)) c);;
        inboxUI ← get client.inboxUI;
        emit (listUI_SetIndicator inboxUI id indicatorNone);;
        save
      else mret tt
  | None => mret tt
  end;;
  mret i.

(** *** [DeselectAll] and the dispatch of [mainUI] (lines 313-318, 522-560) *)

Definition deselect (get_ui : client.t -> listUI.t)
    (set_ui : listUI.t -> client.t -> client.t) : Cl unit :=
  cs ← get get_ui;
  let '(cs, es) := listUI_Deselect cs in
  update (set_ui cs);; emit es.

Definition DeselectAll : Cl unit :=
  deselect client.inboxUI client.set_inboxUI;;
  deselect client.outboxUI client.set_outboxUI;;
  deselect client.contactsUI client.set_contactsUI;;
  deselect client.clientUI set_clientUI.

Definition select (get_ui : client.t -> listUI.t)
    (set_ui : listUI.t -> client.t -> client.t) (id : N) : Cl unit :=
  cs ← get get_ui;
  '(cs, es) ← deref (listUI_Select cs id);
  update (set_ui cs);; emit es.

(** One turn of the loop of [mainUI] for a click, up to the screen it
    opens. *)
Definition mainUI_dispatch (click : Click.t) : Cl Dispatch :=
  DeselectAll;;
  c ← get (fun c => c);
  match listUI_Event (client.inboxUI c) click with
  | Some id => select client.inboxUI client.set_inboxUI id;;
               mret (openInbox id)
  | None =>
  match listUI_Event (client.outboxUI c) click with
  | Some id => select client.outboxUI client.set_outboxUI id;;
               mret (openOutbox id)
  | None =>
  match listUI_Event (client.contactsUI c) click with
  | Some id => select client.contactsUI client.set_contactsUI id;;
               mret (openContact id)
  | None =>
  match listUI_Event (client.clientUI c) click with
  | Some id =>
      select client.clientUI set_clientUI id;;
      if (id =? clientUIIdentity)%N then mret openIdentity
      else if (id =? clientUIActivity)%N then mret openLog
      else panic
  | None =>
      if String.eqb (Click.name click) "newcontact" then mret openNewContact
      else if String.eqb (Click.name click) "compose" then mret openCompose
      else mret noScreen
  end end end end.

End MoreClient.

(** *** Vocabulary of the further properties *)

Section MoreStates.
Context `{Bbssig}.

(** Every contact is stored under its own id. *)
Definition contactsKeyed (contacts : gmap N Contact.t) : Prop :=
  forall i contact, contacts !! i = Some contact -> Contact.id contact = i.

(** No two contacts have the same name. *)
Definition namesUnique (contacts : gmap N Contact.t) : Prop :=
  forall i j contact1 contact2,
    contacts !! i = Some contact1 -> contacts !! j = Some contact2 ->
    Contact.name contact1 = Contact.name contact2 -> i = j.

(** The same contacts under the same keys, each with the id and the name
    it had. *)
Definition sameContacts (contacts contacts' : gmap N Contact.t) : Prop :=
  forall i,
    option_Forall2
      (fun contact contact' =>
         Contact.id contact' = Contact.id contact
         /\ Contact.name contact' = Contact.name contact)
      (contacts !! i) (contacts' !! i).

End MoreStates.

Section MoreHandshake.
Context `{Bbssig}.

(** The six writes of a [processKeyExchange] that passes every check, for
    the payload [kx] and the member key [key] parsed from it. *)
Definition handshakeApplied (kx : KeyExchange.t) (key : option MemberKey)
    (contact : Contact.t) : Contact.t :=
  Contact.set_generation (KeyExchange.Generation kx)
    (Contact.set_theirCurrentDHPublic (KeyExchange.Dh kx)
       (Contact.set_theirIdentityPublic (KeyExchange.IdentityPublic kx)
          (Contact.set_myGroupKey key
             (Contact.set_theirServer (KeyExchange.Server kx)
                (Contact.set_theirPub (KeyExchange.PublicKey kx) contact))))).

End MoreHandshake.

(** The widget names of a list are the ones [newIdent] has handed out: the
    entry at position [k] holds the names numbered [4k] to [4k+3], and
    [nextId] is the next number. *)
Definition listUI_named (cs : listUI.t) : Prop :=
  listUI.nextId cs = (4 * length (listUI.entries cs))%nat
  /\ forall k entry,
       listUI.entries cs !! k = Some entry ->
       let ident n := listUI.vboxName cs +:+ "-" +:+ pretty n in
       listItem.sepName entry = ident (4 * k)%nat
       /\ listItem.boxName entry = ident (4 * k + 1)%nat
       /\ listItem.imageName entry = ident (4 * k + 2)%nat
       /\ listItem.sublineTextName entry = ident (4 * k + 3)%nat.

(** The messages that [mainUI] gives an entry: in the inbox the sealed
    ones and the decoded ones with a body, in the outbox the ones with a
    body. *)
Definition inboxListed (msg : InboxMessage.t) : bool :=
  match InboxMessage.message msg with
  | None => true
  | Some message => negb (length (Message.Body message) =? 0)%nat
  end.

Definition outboxListed (msg : queuedMessage.t) : bool :=
  (0 <? length (Message.Body (queuedMessage.message msg)))%nat.

Section ListsNamed.
Context `{Bbssig}.

(** The four lists of the main window as [mainUI] leaves them: widget
    names as handed out, and in the client list the two entries of
    [mainUI] only. *)
Definition listsNamed (c : client.t) : Prop :=
  listUI_named (client.inboxUI c)
  /\ listUI_named (client.outboxUI c)
  /\ listUI_named (client.contactsUI c)
  /\ listUI_named (client.clientUI c)
  /\ Forall (fun entry => listItem.id entry = clientUIIdentity
                          \/ listItem.id entry = clientUIActivity)
            (listUI.entries (client.clientUI c)).

(** The client with these four lists and these further effects. *)
Definition withLists (inboxUI outboxUI contactsUI clientUI : listUI.t)
    (es : list Effect) (c : client.t) : client.t :=
  client.set_effects (client.effects c ++ es)
    (set_clientUI clientUI
       (client.set_contactsUI contactsUI
          (client.set_outboxUI outboxUI (client.set_inboxUI inboxUI c)))).

(** The ids selected in the inbox, outbox, contacts and client lists when
    [mainUI] opens a screen; 0 is no selection. *)
Definition selection (d : Dispatch) : N * N * N * N :=
  match d with
  | openInbox id => (id, 0, 0, 0)
  | openOutbox id => (0, id, 0, 0)
  | openContact id => (0, 0, id, 0)
  | openIdentity => (0, 0, 0, clientUIIdentity)
  | openLog => (0, 0, 0, clientUIActivity)
  | openNewContact | openCompose | noScreen => (0, 0, 0, 0)
  end%N.

End ListsNamed.

(** * Properties *)

(** ** The handshake: [processKeyExchange] *)

Ltac kx_unfold :=
  unfold processKeyExchange, mbind, StErr_bind, mret, StErr_ret, try, require,
    throw, gets, modify, fromProto, fromServer in *.

(** Closes the case of a failure at a known gate: the error and the
    contact reached are known, and each conjunct is read off them. *)
Ltac kx_failed :=
  intros [= <- <-]; cbn;
  repeat match goal with |- _ /\ _ => split end;
  try reflexivity;
  try (intros; exfalso; cbn in *; lia);
  try (intros [?|?]; exfalso; cbn in *; (lia || discriminate));
  try (intros ?; exfalso; congruence);
  try (intros; reflexivity);
  try (intros; eauto).

Section KeyExchangeProperties.
Context `{Proto} `{Ed25519} `{Bbssig} `{ServerAddress}.

(** C3.  For every input, [processKeyExchange] fails exactly when the
    specification's gates, taken in the specification's order, have a first
    violated gate, and the error it returns belongs to the class of that
    gate; otherwise it returns no error.  The outcome does not depend on the
    contact it is applied to: the signature is checked against the key
    taken from the payload itself, never against a key held before. *)
Theorem processKeyExchange_fails_at_first_violated_gate
    (contact : Contact.t) (kxsBytes : bytes) (testing : bool) :
  ((snd (processKeyExchange kxsBytes testing contact) = inr tt
    /\ ApplyHandshake_violation kxsBytes testing = None)
   \/ (exists err cls,
         snd (processKeyExchange kxsBytes testing contact) = inl err
         /\ errorClass err = Some cls
         /\ ApplyHandshake_violation kxsBytes testing = Some cls))
  /\ (forall other : Contact.t,
        snd (processKeyExchange kxsBytes testing other)
        = snd (processKeyExchange kxsBytes testing contact)).
Proof.
  kx_unfold. unfold ApplyHandshake_violation.
  destruct (Unmarshal_SignedKeyExchange kxsBytes) as [d|kxs]; cbn;
    [split; [right|]; eauto|].
  destruct (length (SignedKeyExchange.Signature kxs) =? 64)%nat; cbn;
    [|split; [right|]; eauto].
  destruct (Unmarshal_KeyExchange _) as [d|kx]; cbn;
    [split; [right|]; eauto|].
  destruct (length (KeyExchange.PublicKey kx) =? 32)%nat; cbn;
    [|split; [right|]; eauto].
  destruct (Verify _ _ _); cbn; [|split; [right|]; eauto].
  destruct (parseServer _ _) as [d|v]; cbn; [split; [right|]; eauto|].
  destruct (Group_Unmarshal _) as [g|]; cbn; [|split; [right|]; eauto].
  destruct (MemberKey_Unmarshal _ _) as [key ok]; cbn.
  destruct ok; cbn; [|split; [right|]; eauto].
  destruct (length (KeyExchange.IdentityPublic kx) =? 32)%nat; cbn;
    [|split; [right|]; eauto].
  destruct (length (KeyExchange.Dh kx) =? 32)%nat; cbn;
    [|split; [right|]; eauto].
  split; [left|]; auto.
Qed.

(** C1 (amended).  [processKeyExchange] writes each field as soon as its
    own check has passed, so a failure leaves the writes of the earlier
    steps in place.  When it returns an error: the contact is unchanged if
    the failure is in the envelope, the signature length, the payload or the
    public key length (steps 1 to 3); [theirServer] is unchanged up to a
    signature failure (step 4); [myGroupKey] is unchanged up to an address
    failure and for an unparseable group; [theirIdentityPublic] is unchanged
    unless the DH length check fails; [theirCurrentDHPublic], [generation]
    and the fields the function never assigns are unchanged in every case.
    From step 4 on, [theirPub] holds the key claimed by the payload. *)
Theorem processKeyExchange_error_keeps_later_fields
    (contact contact' : Contact.t) (kxsBytes : bytes) (testing : bool)
    (err : error) :
  processKeyExchange kxsBytes testing contact = (contact', inl err) ->
  (errorStep err <= 3 -> contact' = contact)
  /\ (errorStep err <= 4 ->
      Contact.theirServer contact' = Contact.theirServer contact)
  /\ (errorStep err <= 5 \/ err = errorsNew "invalid group" ->
      Contact.myGroupKey contact' = Contact.myGroupKey contact)
  /\ (err <> errorsNew "invalid public DH value" ->
      Contact.theirIdentityPublic contact'
      = Contact.theirIdentityPublic contact)
  /\ Contact.theirCurrentDHPublic contact'
     = Contact.theirCurrentDHPublic contact
  /\ Contact.generation contact' = Contact.generation contact
  /\ Contact.id contact' = Contact.id contact
  /\ Contact.name contact' = Contact.name contact
  /\ Contact.isPending contact' = Contact.isPending contact
  /\ Contact.kxsBytes contact' = Contact.kxsBytes contact
  /\ Contact.groupKey contact' = Contact.groupKey contact
  /\ Contact.theirLastDHPublic contact' = Contact.theirLastDHPublic contact
  /\ Contact.lastDHPrivate contact' = Contact.lastDHPrivate contact
  /\ Contact.currentDHPrivate contact' = Contact.currentDHPrivate contact
  /\ (4 <= errorStep err ->
      exists kxs kx,
        Unmarshal_SignedKeyExchange kxsBytes = inr kxs
        /\ Unmarshal_KeyExchange (SignedKeyExchange.Signed kxs) = inr kx
        /\ Contact.theirPub contact' = KeyExchange.PublicKey kx).
Proof.
  kx_unfold.
  destruct (Unmarshal_SignedKeyExchange kxsBytes) as [d|kxs] eqn:Ekxs; cbn;
    [kx_failed|].
  destruct (length (SignedKeyExchange.Signature kxs) =? 64)%nat; cbn;
    [|kx_failed].
  destruct (Unmarshal_KeyExchange _) as [d|kx] eqn:Ekx; cbn; [kx_failed|].
  destruct (length (KeyExchange.PublicKey kx) =? 32)%nat; cbn; [|kx_failed].
  destruct (Verify _ _ _); cbn; [|kx_failed].
  destruct (parseServer _ _) as [d|v]; cbn; [kx_failed|].
  destruct (Group_Unmarshal _) as [g|]; cbn; [|kx_failed].
  destruct (MemberKey_Unmarshal _ _) as [key ok]; cbn.
  destruct ok; cbn; [|kx_failed].
  destruct (length (KeyExchange.IdentityPublic kx) =? 32)%nat; cbn;
    [|kx_failed].
  destruct (length (KeyExchange.Dh kx) =? 32)%nat; cbn; [|kx_failed].
  intros [= ].
Qed.

Lemma processKeyExchange_keeps_id (contact contact' : Contact.t)
    (kxsBytes : bytes) (testing : bool) (r : error + unit) :
  processKeyExchange kxsBytes testing contact = (contact', r) ->
  Contact.id contact' = Contact.id contact.
Proof.
  kx_unfold.
  destruct (Unmarshal_SignedKeyExchange kxsBytes) as [d|kxs]; cbn;
    [by intros [= <- <-]|].
  destruct (length (SignedKeyExchange.Signature kxs) =? 64)%nat; cbn;
    [|by intros [= <- <-]].
  destruct (Unmarshal_KeyExchange _) as [d|kx]; cbn; [by intros [= <- <-]|].
  destruct (length (KeyExchange.PublicKey kx) =? 32)%nat; cbn;
    [|by intros [= <- <-]].
  destruct (Verify _ _ _); cbn; [|by intros [= <- <-]].
  destruct (parseServer _ _) as [d|v]; cbn; [by intros [= <- <-]|].
  destruct (Group_Unmarshal _) as [g|]; cbn; [|by intros [= <- <-]].
  destruct (MemberKey_Unmarshal _ _) as [key ok]; cbn.
  destruct ok; cbn; [|by intros [= <- <-]].
  destruct (length (KeyExchange.IdentityPublic kx) =? 32)%nat; cbn;
    [|by intros [= <- <-]].
  destruct (length (KeyExchange.Dh kx) =? 32)%nat; cbn;
    by intros [= <- <-].
Qed.

End KeyExchangeProperties.

Ltac cl_unfold :=
  unfold mbind, Cl_bind, mret, Cl_ret, get, update, emit, deref, panic in *.

(** Normalises a client built by setters: call by value, on the setters
    and the projections only, so that nested updates stay small. *)
Ltac client_norm :=
  cbv [withContact withQueued
       client.set_rand client.set_writerChan client.set_fetchNowChan
       client.set_uiActions client.set_inboxUI client.set_outboxUI
       client.set_contactsUI client.set_outbox client.set_contacts
       client.set_inbox client.set_queue client.set_effects
       client.testing client.server client.identity client.identityPublic
       client.groupPriv client.generation client.priv client.pub client.rand
       client.writerChan client.writerDone client.fetchNowChan
       client.uiActions client.inboxUI client.outboxUI client.contactsUI
       client.clientUI client.outbox client.contacts client.inbox
       client.queue client.effects].

(** ** The client goroutine *)

Section ClientProperties.
Context `{Proto} `{Ed25519} `{Curve25519} `{Bbssig} `{ServerAddress}.
Context `{Pem} `{TimeFormat} `{!Sealing}.

Lemma withContact_id (c : client.t) contactId contact :
  client.contacts c !! contactId = Some contact ->
  withContact contactId contact [] c = c.
Proof.
  intros E. destruct c; cbn in E. client_norm.
  rewrite insert_id by done. by rewrite app_nil_r.
Qed.

Lemma withContact_withContact (c : client.t) contactId k1 k2 es1 es2 :
  withContact contactId k2 es2 (withContact contactId k1 es1 c)
  = withContact contactId k2 (es1 ++ es2) c.
Proof.
  destruct c. client_norm.
  by rewrite insert_insert_eq, app_assoc.
Qed.

Lemma sameButRatchet_refl (contact : Contact.t) : sameButRatchet contact contact.
Proof. by destruct contact. Qed.

Lemma sameButRatchet_trans (k1 k2 k3 : Contact.t) :
  sameButRatchet k1 k2 -> sameButRatchet k2 k3 -> sameButRatchet k1 k3.
Proof. unfold sameButRatchet. intros -> ->. by destruct k1. Qed.

Lemma sameButRatchet_set (contact : Contact.t) r :
  sameButRatchet contact (Contact.set_ratchet r contact).
Proof. by destruct contact. Qed.

Lemma sameButRatchet_id (contact contact' : Contact.t) :
  sameButRatchet contact contact' -> Contact.id contact' = Contact.id contact.
Proof. unfold sameButRatchet. by intros ->. Qed.

Lemma unsealOne_spec contactId (msg : InboxMessage.t) (c : client.t) contact :
  client.contacts c !! contactId = Some contact ->
  Contact.id contact = contactId ->
  (pendingFrom contactId msg = true ->
   is_Some (listUI_find (client.inboxUI c) (InboxMessage.id msg))) ->
  exists msg' contact' es,
    unsealOne contactId msg c = Some (msg', withContact contactId contact' es c)
    /\ sameButRatchet contact contact'
    /\ (pendingFrom contactId msg = false -> msg' = msg)
    /\ (pendingFrom contactId msg = true ->
        unsealOutcome (client.inboxUI c) es msg msg').
Proof.
  intros Hk Hid Hui. unfold unsealOne, pendingFrom in *.
  destruct (InboxMessage.message msg) as [m|] eqn:Em.
  { exists msg, contact, []. rewrite withContact_id by done.
    repeat split; auto using sameButRatchet_refl. done. }
  cl_unfold. cbn. rewrite Hk. cbn. rewrite Hid.
  destruct (InboxMessage.from msg =? contactId)%N eqn:Efrom.
  2:{ exists msg, contact, []. rewrite withContact_id by done.
      repeat split; auto using sameButRatchet_refl. done. }
  destruct (Hui eq_refl) as [entry Hentry].
  unfold unsealMessage.
  destruct (unseal contact (InboxMessage.sealed msg)) as [[message ratchet]|] eqn:Eu; cbn.
  - destruct (length (Message.Body message) =? 0)%nat eqn:Elen; cbn.
    + unfold listUI_Remove. rewrite Hentry. cbn.
      eexists _, _, _. split; [reflexivity|].
      split; [apply sameButRatchet_set|]. split; [done|]. intros _.
      left. exists contact, message, ratchet. repeat split; auto.
      * exists entry. repeat split; auto; set_solver.
      * intros Hne. apply Nat.eqb_eq in Elen. destruct (Message.Body message); done.
    + unfold listUI_SetSubline, listUI_SetIndicator. rewrite Hentry.
      eexists _, _, _. split.
      { client_norm. rewrite <- app_assoc. reflexivity. }
      split; [apply sameButRatchet_set|]. split; [done|]. intros _.
      left. exists contact, message, ratchet. repeat split; auto.
      * intros Hb. rewrite Hb in Elen. done.
      * intros _. exists entry. split; auto. set_solver.
  - unfold listUI_Remove. rewrite Hentry. cbn.
    eexists _, _, _. split; [reflexivity|].
    split; [apply sameButRatchet_refl|]. split; [done|]. intros _.
    right. exists contact. repeat split; auto.
    exists entry. repeat split; auto; set_solver.
Qed.

Lemma removedFromList_mono ui shown shown' id :
  shown ⊆ shown' -> removedFromList ui shown id -> removedFromList ui shown' id.
Proof. intros Hs (entry & ? & ? & ?). exists entry. set_solver. Qed.

Lemma markedNew_mono ui shown shown' id :
  shown ⊆ shown' -> markedNew ui shown id -> markedNew ui shown' id.
Proof. intros Hs (entry & ? & ?). exists entry. set_solver. Qed.

Lemma unsealOutcome_mono ui shown shown' (msg msg' : InboxMessage.t) :
  shown ⊆ shown' ->
  unsealOutcome ui shown msg msg' -> unsealOutcome ui shown' msg msg'.
Proof.
  intros Hs [(from & m & r & ? & ? & ? & ?)|(from & ? & ? & ?)].
  - left. exists from, m, r.
    repeat split; eauto using removedFromList_mono, markedNew_mono.
  - right. exists from. eauto using removedFromList_mono.
Qed.

Lemma unsealAll_spec contactId (msgs : list InboxMessage.t) :
  forall (c : client.t) contact,
  client.contacts c !! contactId = Some contact ->
  Contact.id contact = contactId ->
  pendingListed (client.inboxUI c) contactId msgs ->
  exists msgs' contact' es,
    unsealAll contactId msgs c
    = Some (msgs', withContact contactId contact' es c)
    /\ sameButRatchet contact contact'
    /\ Forall2 (fun msg msg' =>
         (pendingFrom contactId msg = false -> msg' = msg)
         /\ (pendingFrom contactId msg = true ->
             unsealOutcome (client.inboxUI c) es msg msg')) msgs msgs'.
Proof.
  induction msgs as [|msg msgs IH]; intros c contact Hk Hid Hui.
  { exists [], contact, []. cbn. rewrite withContact_id by done.
    repeat split; auto using sameButRatchet_refl. }
  apply Forall_cons in Hui as [Hmsg Hui].
  destruct (unsealOne_spec contactId msg c contact Hk Hid Hmsg)
    as (msg' & k1 & es1 & E1 & S1 & Hno & Hyes).
  destruct (IH (withContact contactId k1 es1 c) k1) as
    (msgs' & k2 & es2 & E2 & S2 & Hall).
  { client_norm. apply lookup_insert_eq. }
  { by rewrite (sameButRatchet_id _ _ S1). }
  { exact Hui. }
  exists (msg' :: msgs'), k2, (es1 ++ es2).
  split.
  { cbn [unsealAll]. cl_unfold. rewrite E1, E2.
    by rewrite withContact_withContact. }
  split; [eauto using sameButRatchet_trans|].
  constructor.
  - split; [done|]. intros Hp.
    eapply unsealOutcome_mono; [|eauto]. set_solver.
  - eapply Forall2_impl; [exact Hall|]. cbn. intros m m' [? Hm]. split; [done|].
    intros Hp. eapply unsealOutcome_mono; [|eauto]. set_solver.
Qed.

Lemma newContactUI_finish_spec contactId (c : client.t) contact :
  client.contacts c !! contactId = Some contact ->
  Contact.id contact = contactId ->
  pendingListed (client.inboxUI c) contactId (client.inbox c) ->
  client.writerChan c = openChan ->
  exists inbox' contact' es,
    newContactUI_finish contactId c
    = Some (Return (showContact contactId),
            client.set_inbox inbox' (withContact contactId contact' es c))
    /\ sameButRatchet (Contact.set_isPending false contact) contact'
    /\ Forall2 (fun msg msg' =>
         (pendingFrom contactId msg = false -> msg' = msg)
         /\ (pendingFrom contactId msg = true ->
             unsealOutcome (client.inboxUI c) es msg msg'))
         (client.inbox c) inbox'.
Proof.
  intros Hk Hid Hui Hw. unfold newContactUI_finish.
  set (c0 := client.set_contacts
               (<[contactId := Contact.set_isPending false contact]>
                  (client.contacts c)) c).
  destruct (unsealAll_spec contactId (client.inbox c) c0
              (Contact.set_isPending false contact))
    as (inbox' & k & es & E & S & Hall).
  { subst c0. cbn. apply lookup_insert_eq. }
  { exact Hid. }
  { exact Hui. }
  exists inbox', k,
    (es ++ listUI_SetSubline (client.contactsUI c) contactId "" ++ [SendState]).
  split.
  { cl_unfold. cbn. rewrite Hk. cbn. fold c0. rewrite E. cbn. rewrite Hid.
    unfold save. cl_unfold. cbn. rewrite Hw. cbn.
    f_equal. f_equal. subst c0. client_norm.
    rewrite insert_insert_eq. rewrite <- !app_assoc. reflexivity. }
  split; [done|].
  eapply Forall2_impl; [exact Hall|]. cbn. intros m m' [? Hm]. split; [done|].
  intros Hp. eapply unsealOutcome_mono; [|eauto]. set_solver.
Qed.

Lemma randBytes_eq n (c : client.t) :
  randBytes n c
  = if (n <=? length (client.rand c))%nat
    then Some (take n (client.rand c),
               client.set_rand (drop n (client.rand c)) c)
    else None.
Proof. unfold randBytes. cl_unfold. cbn. by destruct (n <=? _)%nat. Qed.

Lemma newKeyExchange_inv (contact contact' : Contact.t) (c c' : client.t)
    kxsBytes :
  newKeyExchange contact c = Some (kxsBytes, contact', c') ->
  exists groupPriv groupKey r' kxBytes,
    (32 <= length (client.rand c))%nat
    /\ client.groupPriv c = Some groupPriv
    /\ NewMember groupPriv (drop 32 (client.rand c)) = inr (groupKey, r')
    /\ Marshal_KeyExchange
         (KeyExchange.mk (client.pub c) (client.identityPublic c)
            (client.server c) (ScalarBaseMult (take 32 (client.rand c)))
            (Group_Marshal (MemberKey_Group groupKey))
            (MemberKey_Marshal groupKey) (client.generation c))
       = inr kxBytes
    /\ Marshal_SignedKeyExchange
         (SignedKeyExchange.mk kxBytes (Sign (client.priv c) kxBytes))
       = inr kxsBytes
    /\ contact' = Contact.set_kxsBytes kxsBytes
                    (Contact.set_groupKey (Some groupKey)
                       (Contact.set_lastDHPrivate (take 32 (client.rand c))
                          contact))
    /\ c' = client.set_rand r' c.
Proof.
  unfold newKeyExchange. unfold mbind at 1. unfold Cl_bind at 1.
  rewrite randBytes_eq.
  destruct (32 <=? length (client.rand c))%nat eqn:Elen; [|done].
  apply Nat.leb_le in Elen.
  cl_unfold. cbn.
  destruct (client.groupPriv c) as [groupPriv|] eqn:Egp; [|done]. cbn.
  destruct (NewMember groupPriv _) as [d|[groupKey r']] eqn:Enm; [done|]. cbn.
  destruct (Marshal_KeyExchange _) as [d|kxBytes] eqn:Ekx; [done|].
  destruct (Marshal_SignedKeyExchange _) as [d|kxs] eqn:Ekxs; [done|].
  intros [= <- <- <-].
  exists groupPriv, groupKey, r', kxBytes. repeat split; auto.
Qed.

Lemma processKeyExchange_accepts `{!Contracts} (local : client.t)
    (localContact localContact' peerContact : Contact.t) (local' : client.t)
    kxsBytes testing :
  (exists r r', GenerateKey r = inr (client.pub local, client.priv local, r')) ->
  length (client.identityPublic local) = 32%nat ->
  (exists v, parseServer (client.server local) testing = inr v) ->
  newKeyExchange localContact local = Some (kxsBytes, localContact', local') ->
  processKeyExchange kxsBytes testing peerContact
  = (Contact.set_generation (client.generation local)
       (Contact.set_theirCurrentDHPublic
          (ScalarBaseMult (Contact.lastDHPrivate localContact'))
          (Contact.set_theirIdentityPublic (client.identityPublic local)
             (Contact.set_myGroupKey (Contact.groupKey localContact')
                (Contact.set_theirServer (client.server local)
                   (Contact.set_theirPub (client.pub local) peerContact))))),
     inr tt).
Proof.
  intros (r & r' & Hkeys) Hid (v & Hserver) Hnew.
  apply newKeyExchange_inv in Hnew
    as (groupPriv & groupKey & r2 & kxBytes & Hlen & Hgp & Hnm & Hkx & Hkxs
        & -> & ->).
  unfold processKeyExchange, mbind, StErr_bind, mret, StErr_ret, try, require,
    throw, gets, modify, fromProto, fromServer.
  rewrite (Unmarshal_Marshal_SignedKeyExchange _ _ Hkxs). cbn.
  rewrite Sign_length. cbn.
  rewrite (Unmarshal_Marshal_KeyExchange _ _ Hkx). cbn.
  rewrite (GenerateKey_public_length _ _ _ _ Hkeys). cbn.
  rewrite (Verify_Sign _ _ _ _ _ Hkeys). cbn.
  rewrite Hserver. cbn.
  rewrite Group_Unmarshal_Marshal, MemberKey_Unmarshal_Marshal. cbn.
  rewrite Hid. cbn. rewrite ScalarBaseMult_length. cbn.
  reflexivity.
Qed.

Lemma newContactUI_process_accepts contactId (click : Click.t)
    (peer : client.t) (peerContact applied : Contact.t) kxsBytes :
  client.contacts peer !! contactId = Some peerContact ->
  Contact.id peerContact = contactId ->
  pem_Decode (list_byte_of_string (mapString (Click.textViews click) "kxin"))
  = Some (keyExchangePEM, kxsBytes) ->
  processKeyExchange kxsBytes (client.testing peer) peerContact
  = (applied, inr tt) ->
  pendingListed (client.inboxUI peer) contactId (client.inbox peer) ->
  client.writerChan peer = openChan ->
  exists inbox' contact' es,
    newContactUI_process contactId click peer
    = Some (Return (showContact contactId),
            client.set_inbox inbox' (withContact contactId contact' es peer))
    /\ sameButRatchet (Contact.set_isPending false applied) contact'
    /\ Forall2 (fun msg msg' =>
         (pendingFrom contactId msg = false -> msg' = msg)
         /\ (pendingFrom contactId msg = true ->
             unsealOutcome (client.inboxUI peer) es msg msg'))
         (client.inbox peer) inbox'.
Proof.
  intros Hk Hid Hpem Hkx Hui Hw.
  set (peer1 := client.set_contacts
                  (<[contactId := applied]> (client.contacts peer)) peer).
  destruct (newContactUI_finish_spec contactId peer1 applied)
    as (inbox' & k & es & E & S & Hall).
  { subst peer1. cbn. apply lookup_insert_eq. }
  { by rewrite (processKeyExchange_keeps_id _ _ _ _ _ Hkx). }
  { exact Hui. }
  { exact Hw. }
  exists inbox', k, es. split; [|split; [done|exact Hall]].
  unfold newContactUI_process. cl_unfold. cbn. rewrite Hk. cbn.
  rewrite Hpem. unfold keyExchangePEM at 1. cbn. rewrite Hkx.
  fold peer1. rewrite E. f_equal. f_equal. subst peer1. client_norm.
  by rewrite insert_insert_eq.
Qed.

(** C2.  The bytes that [newKeyExchange] produces for a local identity
    (keys made by [GenerateKey], a 32-byte public identity, a server address
    that the receiving side parses) are accepted by [processKeyExchange] on
    any contact of the peer: it returns no error.  Fed to the peer's
    "process" click for a contact stored under its id, they end the loop of
    [newContactUI], after which the peer's contact is no longer pending and
    holds the local public key. *)
Theorem handshake_round_trip `{!Contracts} (local local' peer : client.t)
    (localContact localContact' peerContact : Contact.t) (kxsBytes : bytes)
    (contactId : N) (click : Click.t) :
  (exists r r', GenerateKey r = inr (client.pub local, client.priv local, r')) ->
  length (client.identityPublic local) = 32%nat ->
  (exists v, parseServer (client.server local) (client.testing peer) = inr v) ->
  newKeyExchange localContact local = Some (kxsBytes, localContact', local') ->
  client.contacts peer !! contactId = Some peerContact ->
  Contact.id peerContact = contactId ->
  pem_Decode (list_byte_of_string (mapString (Click.textViews click) "kxin"))
  = Some (keyExchangePEM, kxsBytes) ->
  pendingListed (client.inboxUI peer) contactId (client.inbox peer) ->
  client.writerChan peer = openChan ->
  (exists applied,
     processKeyExchange kxsBytes (client.testing peer) peerContact
     = (applied, inr tt))
  /\ (exists peer' contact',
        newContactUI_process contactId click peer
        = Some (Return (showContact contactId), peer')
        /\ client.contacts peer' !! contactId = Some contact'
        /\ Contact.isPending contact' = false
        /\ Contact.theirPub contact' = client.pub local).
Proof.
  intros Hkeys Hid Hserver Hnew Hk Hstored Hpem Hui Hw.
  pose proof (processKeyExchange_accepts local localContact localContact'
                peerContact local' kxsBytes (client.testing peer)
                Hkeys Hid Hserver Hnew) as Hkx.
  split; [eauto|].
  destruct (newContactUI_process_accepts contactId click peer peerContact _
              kxsBytes Hk Hstored Hpem Hkx Hui Hw)
    as (inbox' & k & es & E & S & _).
  eexists _, k. split; [exact E|].
  split; [cbn; apply lookup_insert_eq|].
  unfold sameButRatchet in S. rewrite S. cbn. done.
Qed.

End ClientProperties.

(** ** Identifiers: [randId] *)

Lemma byte_to_N_zero (b : byte) : Byte.to_N b = 0%N -> b = x00.
Proof.
  intros E. pose proof (Byte.of_to_N b) as Hb. rewrite E in Hb.
  cbn in Hb. congruence.
Qed.

Lemma LittleEndian_Uint64_zero b0 b1 b2 b3 b4 b5 b6 b7 :
  LittleEndian_Uint64 [b0; b1; b2; b3; b4; b5; b6; b7] = 0%N ->
  [b0; b1; b2; b3; b4; b5; b6; b7] = replicate 8 x00.
Proof.
  unfold LittleEndian_Uint64.
  rewrite !N.lor_eq_0_iff, !N.shiftl_eq_0_iff.
  intros (?&?&?&?&?&?&?&?).
  cbn. repeat f_equal; by apply byte_to_N_zero.
Qed.

Lemma randId_loop_spec (r : bytes) : forall n r',
  randId_loop r = Some (n, r') <->
  exists k chunk,
    length chunk = 8%nat
    /\ n = LittleEndian_Uint64 chunk
    /\ n <> 0%N
    /\ r = replicate (8 * k) x00 ++ chunk ++ r'.
Proof.
  remember (length r) as len eqn:Hlen. revert r Hlen.
  induction len as [len IH] using lt_wf_ind. intros r Hlen n r'.
  destruct r as [|b0 [|b1 [|b2 [|b3 [|b4 [|b5 [|b6 [|b7 r0]]]]]]]];
    try (split; [discriminate|];
         intros (k & chunk & Hc & _ & _ & Hr);
         apply (f_equal length) in Hr;
         rewrite !length_app, length_replicate, Hc in Hr; cbn in Hr; lia).
  cbn [randId_loop].
  destruct (N.eqb_spec (LittleEndian_Uint64 [b0; b1; b2; b3; b4; b5; b6; b7]) 0)
    as [Hz|Hnz].
  - rewrite (IH (length r0)) by (subst len; cbn; lia || reflexivity).
    apply LittleEndian_Uint64_zero in Hz. injection Hz as -> -> -> -> -> -> -> ->.
    split.
    + intros (k & chunk & Hc & Hn & Hne & Hr).
      exists (S k), chunk. repeat split; auto.
      rewrite Hr. replace (8 * S k)%nat with (8 + 8 * k)%nat by lia.
      reflexivity.
    + intros (k & chunk & Hc & Hn & Hne & Hr).
      destruct k as [|k].
      * cbn in Hr.
        destruct chunk as [|c0 [|c1 [|c2 [|c3 [|c4 [|c5 [|c6 [|c7 [|]]]]]]]]];
          try discriminate.
        cbn in Hr. injection Hr as <- <- <- <- <- <- <- <- <-.
        exfalso. apply Hne. rewrite Hn. reflexivity.
      * replace (8 * S k)%nat with (8 + 8 * k)%nat in Hr by lia.
        cbn in Hr. injection Hr as Hr.
        exists k, chunk. repeat split; auto.
  - split.
    + intros [= <- <-]. exists 0%nat, [b0; b1; b2; b3; b4; b5; b6; b7].
      repeat split; auto.
    + intros (k & chunk & Hc & Hn & Hne & Hr).
      destruct k as [|k].
      * cbn in Hr.
        destruct chunk as [|c0 [|c1 [|c2 [|c3 [|c4 [|c5 [|c6 [|c7 [|]]]]]]]]];
          try discriminate.
        cbn in Hr. injection Hr as <- <- <- <- <- <- <- <- <-.
        by rewrite Hn.
      * replace (8 * S k)%nat with (8 + 8 * k)%nat in Hr by lia.
        cbn in Hr. injection Hr as -> -> -> -> -> -> -> -> _.
        exfalso. apply Hnz. reflexivity.
Qed.

(** ** Composing and acknowledging *)

Section ComposeProperties.
Context `{Proto} `{Ed25519} `{Curve25519} `{Bbssig} `{ServerAddress}.
Context `{Pem} `{TimeFormat} `{!Sealing}.

Lemma randId_eq (c : client.t) :
  randId c = match randId_loop (client.rand c) with
             | Some (n, r') => Some (n, client.set_rand r' c)
             | None => None
             end.
Proof.
  unfold randId. cl_unfold. cbn.
  by destruct (randId_loop (client.rand c)) as [[n r']|].
Qed.

Lemma send_eq (to : Contact.t) message (c : client.t) :
  send to message c
  = Some (match Marshal_Message message with
          | inl detail => (Some (protoError detail), c)
          | inr messageBytes =>
              if (MaxSerializedMessage <? length messageBytes)%nat
              then (Some (errorsNew "message too large"), c)
              else (None,
                    client.set_outbox
                      (client.outbox c ++ [newQueuedMessage to message])
                      (client.set_queue
                         (client.queue c ++ [newQueuedMessage to message]) c))
          end).
Proof.
  unfold send. destruct (Marshal_Message message) as [d|b]; [done|].
  by destruct (MaxSerializedMessage <? length b)%nat.
Qed.

Lemma composeReplyToId_iff inReplyTo (c c' : client.t) replyToId :
  composeReplyToId inReplyTo c = Some (replyToId, c')
  <-> c' = c /\ replyReference (client.inbox c) inReplyTo replyToId.
Proof.
  unfold composeReplyToId, replyReference. cl_unfold.
  destruct inReplyTo as [i|]; cbn.
  - destruct (client.inbox c !! i) as [msg|] eqn:Ei; cbn.
    + destruct (InboxMessage.message msg) as [m|] eqn:Em; cbn.
      * split; [intros [= <- <-]; eauto 10|].
        intros (-> & msg' & m' & [= <-] & Hm & ->). congruence.
      * split; [done|]. intros (-> & msg' & m' & [= <-] & Hm & ->).
        congruence.
    + split; [done|]. intros (_ & msg' & m' & ? & _). done.
  - split; [by intros [= <- <-]|]. by intros [-> ->].
Qed.

Lemma replyReference_unique inbox inReplyTo r1 r2 :
  replyReference inbox inReplyTo r1 -> replyReference inbox inReplyTo r2 ->
  r1 = r2.
Proof.
  unfold replyReference. destruct inReplyTo as [i|]; [|congruence].
  intros (m1 & k1 & E1 & M1 & ->) (m2 & k2 & E2 & M2 & ->). congruence.
Qed.

Lemma composeUI_send_returns_iff inReplyTo attachments (click : Click.t) now
    (c c' : client.t) next :
  composeUI_send inReplyTo attachments click now c = Some (Return next, c')
  <->
  exists to id r' replyToId serialized,
    let record := composeMessage id now (composeBody click) replyToId
                    (ScalarBaseMult (Contact.currentDHPrivate to))
                    attachments in
    mapString (Click.combos click) "to" <> ""
    /\ findContact (client.contacts c) (mapString (Click.combos click) "to")
       = Some to
    /\ replyReference (client.inbox c) inReplyTo replyToId
    /\ randId_loop (client.rand c) = Some (id, r')
    /\ Marshal_Message record = inr serialized
    /\ (length serialized <= MaxSerializedMessage)%nat
    /\ client.writerChan c = openChan
    /\ next = showOutbox id
    /\ c' = client.set_effects (client.effects c ++ [SendState])
              (client.set_inbox (markAcked inReplyTo (client.inbox c))
                 (withQueued (newQueuedMessage to record) r' c)).
Proof.
  unfold composeUI_send.
  destruct (mapString (Click.combos click) "to") as [|a toName] eqn:Eto.
  { cbn. split; [discriminate|]. intros (?&?&?&?&?&?&_); done. }
  cbn [String.length Nat.eqb].
  unfold contactByName. cl_unfold. cbn.
  destruct (findContact (client.contacts c) (String a toName)) as [to|] eqn:Efind;
    cbn.
  2:{ split; [discriminate|]. intros (?&?&?&?&?&_&?&_); done. }
  destruct (composeReplyToId inReplyTo c) as [[replyToId c1]|] eqn:Ereply.
  2:{ split; [done|]. intros (?&?&?&rid&?&_&_&Hr&_).
      assert (composeReplyToId inReplyTo c = Some (rid, c))
        by (by apply composeReplyToId_iff).
      congruence. }
  apply composeReplyToId_iff in Ereply as [-> Hreply].
  split.
  - intros Hk.
    rewrite randId_eq in Hk.
    destruct (randId_loop (client.rand c)) as [[id r']|] eqn:Eid; [|done].
    rewrite send_eq in Hk.
    destruct (Marshal_Message _) as [d|serialized] eqn:Em; [done|].
    destruct (MaxSerializedMessage <? length serialized)%nat eqn:Elen; [done|].
    apply Nat.ltb_ge in Elen.
    unfold save in Hk. cl_unfold.
    destruct inReplyTo as [i|]; cbn in Hk.
    + destruct (client.writerChan c) eqn:Ew; try done.
      injection Hk as <- <-.
      exists to, id, r', replyToId, serialized. cbn. rewrite Em.
      repeat split; auto.
    + destruct (client.writerChan c) eqn:Ew; try done.
      injection Hk as <- <-.
      exists to, id, r', replyToId, serialized. cbn. rewrite Em.
      repeat split; auto.
  - intros (to' & id & r' & replyToId' & serialized & _ & [= <-] & Hr & Hid
            & Hm & Hlen & Hw & -> & ->).
    assert (replyToId' = replyToId) as ->
      by eauto using replyReference_unique.
    rewrite randId_eq, Hid, send_eq, Hm.
    apply Nat.ltb_ge in Hlen. rewrite Hlen.
    unfold save. cl_unfold.
    destruct inReplyTo as [i|]; cbn; rewrite Hw; reflexivity.
Qed.

Lemma composeUI_send_continues inReplyTo attachments (click : Click.t) now
    (c c' : client.t) :
  composeUI_send inReplyTo attachments click now c = Some (Continue, c') ->
  client.outbox c' = client.outbox c /\ client.queue c' = client.queue c.
Proof.
  unfold composeUI_send.
  destruct (String.length _ =? 0)%nat; [by intros [= <-]|].
  unfold contactByName. cl_unfold. cbn.
  destruct (findContact _ _) as [to|]; [|done]. cbn.
  destruct (composeReplyToId inReplyTo c) as [[replyToId c1]|] eqn:Ereply;
    [|done].
  apply composeReplyToId_iff in Ereply as [-> _].
  rewrite randId_eq.
  destruct (randId_loop (client.rand c)) as [[id r']|]; [|done].
  rewrite send_eq.
  destruct (Marshal_Message _) as [d|serialized].
  { by intros [= <-]. }
  destruct (MaxSerializedMessage <? length serialized)%nat.
  { by intros [= <-]. }
  unfold save. cl_unfold.
  destruct inReplyTo; cbn; destruct (client.writerChan c); done.
Qed.

Lemma composeBody_not_empty (click : Click.t) :
  list_byte_of_string (composeBody click) <> [].
Proof.
  unfold composeBody.
  destruct (mapString (Click.textViews click) "body"); cbn; done.
Qed.

(** C10.  A record built by the send click of [composeUI] never has an
    empty body: every round that enqueues a record enqueues one whose body
    is the text typed, or a single space when nothing was typed; a round
    that does not hand over to the outbox enqueues nothing.  The record of
    [sendAck] has a zero-length body. *)
Theorem composed_body_is_never_empty inReplyTo attachments (click : Click.t)
    now (c c' : client.t) step :
  composeUI_send inReplyTo attachments click now c = Some (step, c') ->
  ((client.outbox c' = client.outbox c /\ client.queue c' = client.queue c)
   \/ (exists out,
         client.outbox c' = client.outbox c ++ [out]
         /\ client.queue c' = client.queue c ++ [out]
         /\ Message.Body (queuedMessage.message out) <> []
         /\ Message.Body (queuedMessage.message out)
            = list_byte_of_string (composeBody click)
         /\ (mapString (Click.textViews click) "body" = "" ->
             Message.Body (queuedMessage.message out) = [x20])))
  /\ (forall id now' nextDHPub inReplyToId,
        Message.Body (ackMessage id now' nextDHPub inReplyToId) = []).
Proof.
  intros Hsend. split; [|done].
  destruct step as [|next].
  - left. eauto using composeUI_send_continues.
  - right. apply composeUI_send_returns_iff in Hsend
      as (to & id & r' & replyToId & serialized & _ & _ & _ & _ & _ & _ & _
          & _ & ->).
    eexists. split; [reflexivity|]. split; [reflexivity|]. cbn.
    split; [apply composeBody_not_empty|]. split; [done|].
    unfold composeBody. by intros ->.
Qed.

(** C4 (amended).  A round of [composeUI] that sends hands over to the
    outbox with one record appended to the queue and the outbox; the record
    carries the id just drawn by [randId] (not zero), the time read, the
    reply reference, and as its DH public value the base-point multiple of
    the contact's current DH private value.  The round draws no other
    randomness and leaves every contact as it was, so the next record
    composed for the same contact carries the same DH public value. *)
Theorem compose_embeds_current_DH_public inReplyTo attachments
    (click : Click.t) now (c c' : client.t) next :
  composeUI_send inReplyTo attachments click now c = Some (Return next, c') ->
  exists to id replyToId out,
    findContact (client.contacts c) (mapString (Click.combos click) "to")
    = Some to
    /\ replyReference (client.inbox c) inReplyTo replyToId
    /\ randId_loop (client.rand c) = Some (id, client.rand c')
    /\ id <> 0%N
    /\ next = showOutbox id
    /\ client.outbox c' = client.outbox c ++ [out]
    /\ client.queue c' = client.queue c ++ [out]
    /\ Message.Id (queuedMessage.message out) = id
    /\ Message.Time (queuedMessage.message out) = now
    /\ Message.InReplyTo (queuedMessage.message out) = replyToId
    /\ Message.MyNextDh (queuedMessage.message out)
       = ScalarBaseMult (Contact.currentDHPrivate to)
    /\ client.contacts c' = client.contacts c
    /\ (forall inReplyTo2 attachments2 (click2 : Click.t) now2 next2 c'',
          mapString (Click.combos click2) "to"
          = mapString (Click.combos click) "to" ->
          composeUI_send inReplyTo2 attachments2 click2 now2 c'
          = Some (Return next2, c'') ->
          exists out2,
            client.outbox c'' = client.outbox c' ++ [out2]
            /\ Message.MyNextDh (queuedMessage.message out2)
               = Message.MyNextDh (queuedMessage.message out)).
Proof.
  intros Hsend.
  apply composeUI_send_returns_iff in Hsend
    as (to & id & r' & replyToId & serialized & _ & Hto & Hreply & Hid & _ & _
        & _ & -> & ->).
  exists to, id, replyToId. eexists.
  split; [done|]. split; [done|]. split; [exact Hid|].
  split; [by apply randId_loop_spec in Hid as (?&?&?&?&?&?); subst|].
  split; [done|]. split; [reflexivity|]. split; [reflexivity|].
  cbn. do 5 (split; [done|]).
  intros inReplyTo2 attachments2 click2 now2 next2 c'' Hname Hsend2.
  apply composeUI_send_returns_iff in Hsend2
    as (to2 & id2 & r2 & replyToId2 & serialized2 & _ & Hto2 & _ & _ & _ & _
        & _ & _ & ->).
  cbn in Hto2. rewrite Hname, Hto in Hto2. injection Hto2 as <-.
  eexists. split; [reflexivity|]. reflexivity.
Qed.

Lemma showInbox_ack_returns (i : nat) now (c : client.t) msg message to id r'
    serialized :
  client.inbox c !! i = Some msg ->
  InboxMessage.message msg = Some message ->
  client.contacts c !! InboxMessage.from msg = Some to ->
  randId_loop (client.rand c) = Some (id, r') ->
  Marshal_Message
    (ackMessage id now (ScalarBaseMult (Contact.currentDHPrivate to))
       (Message.Id message)) = inr serialized ->
  (length serialized <= MaxSerializedMessage)%nat ->
  showInbox_ack i now c
  = Some (tt,
          client.set_effects
            (client.effects c
             ++ [Act (Sensitive "ack" false); Signal;
                 Act (UIState uiStateInbox); Signal])
            (withQueued
               (newQueuedMessage to
                  (ackMessage id now
                     (ScalarBaseMult (Contact.currentDHPrivate to))
                     (Message.Id message)))
               r'
               (client.set_inbox
                  (alter (InboxMessage.set_acked true) i (client.inbox c)) c))).
Proof.
  intros Hi Hm Hto Hid Hmarshal Hlen.
  unfold showInbox_ack, sendAck. cl_unfold. cbn. rewrite Hi. cbn.
  rewrite list_lookup_alter_eq, Hi. cbn. rewrite Hto. cbn.
  rewrite randId_eq. cbn. rewrite Hid. cbn. rewrite Hm. cl_unfold. cbn.
  rewrite send_eq, Hmarshal.
  apply Nat.ltb_ge in Hlen. rewrite Hlen.
  f_equal. f_equal. client_norm. by rewrite <- app_assoc.
Qed.

(** C7.  The ack click of [showInbox] on a decoded message whose sender is
    a known contact, with an id to draw and a record that [send] accepts,
    marks the message acked and appends to the queue (and the outbox) a
    record with a zero-length body, addressed to that contact, replying to
    the message, whose DH public value is the base-point multiple of the
    contact's current DH private value: the value that a record composed
    for the same contact in the same state carries. *)
Theorem ack_enqueues_empty_record (i : nat) now (c : client.t) msg message to
    id r' serialized :
  client.inbox c !! i = Some msg ->
  InboxMessage.message msg = Some message ->
  client.contacts c !! InboxMessage.from msg = Some to ->
  randId_loop (client.rand c) = Some (id, r') ->
  Marshal_Message
    (ackMessage id now (ScalarBaseMult (Contact.currentDHPrivate to))
       (Message.Id message)) = inr serialized ->
  (length serialized <= MaxSerializedMessage)%nat ->
  exists c' out,
    showInbox_ack i now c = Some (tt, c')
    /\ client.queue c' = client.queue c ++ [out]
    /\ client.outbox c' = client.outbox c ++ [out]
    /\ Message.Body (queuedMessage.message out) = []
    /\ queuedMessage.to out = Contact.id to
    /\ queuedMessage.server out = Contact.theirServer to
    /\ Message.InReplyTo (queuedMessage.message out) = Some (Message.Id message)
    /\ client.inbox c' !! i = Some (InboxMessage.set_acked true msg)
    /\ Message.MyNextDh (queuedMessage.message out)
       = ScalarBaseMult (Contact.currentDHPrivate to)
    /\ (forall inReplyTo attachments (click : Click.t) now2 next c2,
          findContact (client.contacts c) (mapString (Click.combos click) "to")
          = Some to ->
          composeUI_send inReplyTo attachments click now2 c
          = Some (Return next, c2) ->
          exists out2,
            client.queue c2 = client.queue c ++ [out2]
            /\ Message.MyNextDh (queuedMessage.message out2)
               = Message.MyNextDh (queuedMessage.message out)).
Proof.
  intros Hi Hm Hto Hid Hmarshal Hlen.
  eexists _, _. split; [by eapply showInbox_ack_returns|].
  split; [reflexivity|]. split; [reflexivity|]. cbn.
  do 4 (split; [done|]).
  split; [by rewrite list_lookup_alter_eq, Hi|]. split; [done|].
  intros inReplyTo attachments click now2 next c2 Hfind Hsend.
  apply composeUI_send_returns_iff in Hsend
    as (to2 & id2 & r2 & replyToId2 & serialized2 & _ & Hto2 & _ & _ & _ & _
        & _ & _ & ->).
  rewrite Hfind in Hto2. injection Hto2 as <-.
  eexists. split; [reflexivity|]. reflexivity.
Qed.
End ComposeProperties.

(** ** Identifiers, sizes, unsealing and shutdown *)

Section SessionProperties.
Context `{Proto} `{Ed25519} `{Curve25519} `{Bbssig} `{ServerAddress}.
Context `{Pem} `{TimeFormat} `{!Sealing}.

(** C8 (amended).  [randId] returns the first eight bytes of the random
    source, read as a little-endian number, that are not all zero, having
    skipped the all-zero groups before them: an id is never zero.  The id
    is a function of the random source alone; the ids already in use are
    not consulted, so ids are distinct only as far as the source makes them
    so. *)
Theorem randId_is_first_nonzero_chunk (c c' : client.t) (n : N) :
  (randId c = Some (n, c') <->
   exists k chunk,
     length chunk = 8%nat
     /\ n = LittleEndian_Uint64 chunk
     /\ n <> 0%N
     /\ client.rand c = replicate (8 * k) x00 ++ chunk ++ client.rand c'
     /\ c' = client.set_rand (client.rand c') c)
  /\ (forall other : client.t,
        client.rand other = client.rand c ->
        fst <$> randId other = fst <$> randId c).
Proof.
  split.
  - rewrite randId_eq. split.
    + destruct (randId_loop (client.rand c)) as [[m r']|] eqn:E; [|done].
      intros [= -> <-]. apply randId_loop_spec in E as (k & chunk & ?&?&?&?).
      exists k, chunk. by destruct c.
    + intros (k & chunk & Hlen & Hn & Hne & Hr & ->).
      assert (randId_loop (client.rand c) = Some (n, client.rand c')) as ->
        by (apply randId_loop_spec; eauto 10).
      by destruct c.
  - intros other Hr. rewrite !randId_eq, Hr.
    by destruct (randId_loop (client.rand c)) as [[m r']|].
Qed.

(** C5 (amended).  [usageString] serialises a candidate record of its own
    (id 0, time 2^62, an all-zero DH value, reply id 1 when replying, the
    body and the attachments) and reports overflow exactly when that
    serialised form is strictly longer than the bound: a candidate of
    exactly the bound is accepted and one byte more is rejected.  The check
    that [send] makes on a record agrees with it whenever the record
    serialises to the length of the candidate. *)
Theorem usageString_overflow_iff_candidate_over_bound (body : string)
    (isReply : bool) (attachments : option (gmap N Message_Attachment.t))
    (serialized : bytes) :
  Marshal_Message (usageCandidate body isReply attachments) = inr serialized ->
  (exists s over,
     usageString body isReply attachments = Some (s, over)
     /\ s = pretty (length serialized) +:+ " of "
            +:+ pretty MaxSerializedMessage +:+ " bytes"
     /\ (over = true <-> (MaxSerializedMessage < length serialized)%nat)
     /\ (length serialized = MaxSerializedMessage -> over = false)
     /\ (length serialized = S MaxSerializedMessage -> over = true)
     /\ (forall (to : Contact.t) record recordBytes (c : client.t),
           Marshal_Message record = inr recordBytes ->
           length recordBytes = length serialized ->
           (fst <$> send to record c
            = Some (Some (errorsNew "message too large"))
            <-> over = true))).
Proof.
  intros Hm. unfold usageString. rewrite Hm.
  eexists _, _. split; [reflexivity|]. split; [reflexivity|].
  split; [apply Nat.ltb_lt|].
  split; [intros ->; apply Nat.ltb_irrefl|].
  split; [intros ->; apply Nat.ltb_lt; lia|].
  intros to record recordBytes c Hr Hlen.
  rewrite send_eq, Hr, Hlen.
  destruct (MaxSerializedMessage <? length serialized)%nat.
  - split; reflexivity.
  - split; intros E; [|discriminate E]. cbn in E. discriminate E.
Qed.

(** C6 (amended).  When the bytes of a "process" click for a contact
    stored under its id pass [processKeyExchange], every message of the inbox keeps its place, its
    id, its received time and its sender; a message that was not sealed, or
    is from another contact, is untouched; a sealed message from the
    contact is given to unseal once: if that succeeds the message holds the
    decoded record and is no longer sealed, and its entry is taken off the
    inbox list when the body is empty and marked as new otherwise; if that
    fails the message stays in the inbox, sealed as it was, and its entry is
    taken off the inbox list.  No message leaves the inbox. *)
Theorem handshake_unseals_pending_messages contactId (click : Click.t)
    (peer : client.t) (peerContact applied : Contact.t) kxsBytes :
  client.contacts peer !! contactId = Some peerContact ->
  Contact.id peerContact = contactId ->
  pem_Decode (list_byte_of_string (mapString (Click.textViews click) "kxin"))
  = Some (keyExchangePEM, kxsBytes) ->
  processKeyExchange kxsBytes (client.testing peer) peerContact
  = (applied, inr tt) ->
  pendingListed (client.inboxUI peer) contactId (client.inbox peer) ->
  client.writerChan peer = openChan ->
  exists peer',
    newContactUI_process contactId click peer
    = Some (Return (showContact contactId), peer')
    /\ Forall2 (fun msg msg' =>
         InboxMessage.id msg' = InboxMessage.id msg
         /\ InboxMessage.receivedTime msg' = InboxMessage.receivedTime msg
         /\ InboxMessage.from msg' = InboxMessage.from msg
         /\ (pendingFrom contactId msg = false -> msg' = msg)
         /\ (pendingFrom contactId msg = true ->
             unsealOutcome (client.inboxUI peer) (client.effects peer')
               msg msg'))
         (client.inbox peer) (client.inbox peer').
Proof.
  intros Hk Hid Hpem Hkx Hui Hw.
  destruct (newContactUI_process_accepts contactId click peer peerContact
              applied kxsBytes Hk Hid Hpem Hkx Hui Hw)
    as (inbox' & k & es & E & _ & Hall).
  eexists. split; [exact E|].
  client_norm.
  eapply Forall2_impl; [exact Hall|]. cbn. intros msg msg' [Hno Hyes].
  assert (Hout : pendingFrom contactId msg = true ->
                 unsealOutcome (client.inboxUI peer)
                   (client.effects peer ++ es) msg msg').
  { intros Hp. eapply unsealOutcome_mono; [|eauto]. set_solver. }
  destruct (pendingFrom contactId msg) eqn:Hp.
  - destruct (Hout eq_refl)
      as [(from & m & r & _ & -> & _)|(from & _ & -> & _)];
      repeat split; auto; done.
  - rewrite Hno by done. repeat split; auto; done.
Qed.

(** C9 (amended).  [ShutdownAndSuspend], on a client none of whose channels
    is closed yet, does the following and nothing else, in this order: when
    the writer's channel exists it hands the current state to the writer,
    closes that channel and waits for the writer to signal that it is done;
    when the network's channel exists it closes it; then it closes the UI's
    action channel and parks for ever.  The one wait, for the writer, comes
    after the writer's channel is closed and before the other channels are
    closed; nothing is awaited between the save and the close. *)
Theorem shutdown_order (c : client.t) :
  client.writerChan c <> closedChan ->
  client.fetchNowChan c <> closedChan ->
  client.uiActions c = openChan ->
  (client.writerChan c = openChan -> client.writerDone c <> nilChan) ->
  (fun r => client.effects (snd r)) <$> ShutdownAndSuspend c
  = Some (client.effects c
          ++ (if isNil (client.writerChan c) then []
              else [SendState; CloseWriterChan; RecvWriterDone])
          ++ (if isNil (client.fetchNowChan c) then []
              else [CloseFetchNowChan])
          ++ [CloseActions; Park]).
Proof.
  intros Hw Hf Hu Hd. destruct c; cbn in Hw, Hf, Hu, Hd. subst uiActions.
  destruct writerChan; try done; destruct fetchNowChan; try done;
    try (destruct writerDone; [by destruct Hd| |]);
    cbv [ShutdownAndSuspend Shutdown save close mbind Cl_bind mret Cl_ret
         get update emit panic isNil negb fmap option_fmap option_map snd];
    client_norm; rewrite <- ?app_assoc; reflexivity.
Qed.

End SessionProperties.
(** * Further properties of the code *)

(** ** The handshake, continued *)

Section MoreKeyExchangeProperties.
Context `{Proto} `{Ed25519} `{Bbssig} `{ServerAddress}.

(** Goes through [processKeyExchange] check by check, closing the cases
    where it stops with [tac]. *)
Ltac kx_cases kxsBytes tac :=
  kx_unfold;
  destruct (Unmarshal_SignedKeyExchange kxsBytes) as [?d|?kxs] eqn:?Ekxs; cbn;
    [tac|];
  destruct (length (SignedKeyExchange.Signature _) =? 64)%nat eqn:?Esig; cbn;
    [|tac];
  destruct (Unmarshal_KeyExchange _) as [?d|?kx] eqn:?Ekx; cbn; [tac|];
  destruct (length (KeyExchange.PublicKey _) =? 32)%nat eqn:?Epub; cbn;
    [|tac];
  destruct (Verify _ _ _) eqn:?Everify; cbn; [|tac];
  destruct (parseServer _ _) as [?d|?v] eqn:?Eserver; cbn; [tac|];
  destruct (Group_Unmarshal _) as [?g|] eqn:?Egroup; cbn; [|tac];
  destruct (MemberKey_Unmarshal _ _) as [?key ?ok] eqn:?Ekey; cbn;
  destruct ok; cbn; [|tac];
  destruct (length (KeyExchange.IdentityPublic _) =? 32)%nat eqn:?Eid; cbn;
    [|tac];
  destruct (length (KeyExchange.Dh _) =? 32)%nat eqn:?Edh; cbn; [|tac].

(** Whatever its outcome, [processKeyExchange] has done nothing to the
    contact but write some of the six fields it fills. *)
Lemma processKeyExchange_writes (contact contact' : Contact.t)
    (kxsBytes : bytes) (testing : bool) (r : error + unit) :
  processKeyExchange kxsBytes testing contact = (contact', r) ->
  exists pub server identity key dh generation,
    contact' = Contact.set_generation generation
                 (Contact.set_theirCurrentDHPublic dh
                    (Contact.set_theirIdentityPublic identity
                       (Contact.set_myGroupKey key
                          (Contact.set_theirServer server
                             (Contact.set_theirPub pub contact))))).
Proof.
  intros Hkx.
  exists (Contact.theirPub contact'), (Contact.theirServer contact'),
    (Contact.theirIdentityPublic contact'), (Contact.myGroupKey contact'),
    (Contact.theirCurrentDHPublic contact'), (Contact.generation contact').
  revert Hkx.
  kx_cases kxsBytes ltac:(intros [= <- <-]; by destruct contact).
  intros [= <- <-]. by destruct contact.
Qed.

(** X1.  Whatever its outcome, [processKeyExchange] leaves alone the
    contact's id, name and pending flag, the handshake bytes and member key
    made for the peer, both DH private values and the peer's last DH public
    value. *)
Theorem processKeyExchange_keeps_local_fields (contact contact' : Contact.t)
    (kxsBytes : bytes) (testing : bool) (r : error + unit) :
  processKeyExchange kxsBytes testing contact = (contact', r) ->
  Contact.id contact' = Contact.id contact
  /\ Contact.name contact' = Contact.name contact
  /\ Contact.isPending contact' = Contact.isPending contact
  /\ Contact.kxsBytes contact' = Contact.kxsBytes contact
  /\ Contact.groupKey contact' = Contact.groupKey contact
  /\ Contact.lastDHPrivate contact' = Contact.lastDHPrivate contact
  /\ Contact.currentDHPrivate contact' = Contact.currentDHPrivate contact
  /\ Contact.theirLastDHPublic contact' = Contact.theirLastDHPublic contact.
Proof.
  intros Hkx. apply processKeyExchange_writes in Hkx as (?&?&?&?&?&?& ->).
  done.
Qed.

Lemma processKeyExchange_success_iff (contact contact' : Contact.t)
    (kxsBytes : bytes) (testing : bool) :
  processKeyExchange kxsBytes testing contact = (contact', inr tt)
  <-> exists kxs kx group key,
        Unmarshal_SignedKeyExchange kxsBytes = inr kxs
        /\ length (SignedKeyExchange.Signature kxs) = 64%nat
        /\ Unmarshal_KeyExchange (SignedKeyExchange.Signed kxs) = inr kx
        /\ length (KeyExchange.PublicKey kx) = 32%nat
        /\ Verify (KeyExchange.PublicKey kx) (SignedKeyExchange.Signed kxs)
             (SignedKeyExchange.Signature kxs) = true
        /\ (exists v, parseServer (KeyExchange.Server kx) testing = inr v)
        /\ Group_Unmarshal (KeyExchange.Group kx) = Some group
        /\ MemberKey_Unmarshal group (KeyExchange.GroupKey kx) = (key, true)
        /\ length (KeyExchange.IdentityPublic kx) = 32%nat
        /\ length (KeyExchange.Dh kx) = 32%nat
        /\ contact' = handshakeApplied kx key contact.
Proof.
  split.
  - kx_cases kxsBytes ltac:(by intros [= <- ?]).
    intros [= <-]. apply Nat.eqb_eq in Esig, Epub, Eid, Edh.
    eexists _, _, _, _. repeat split; eauto.
  - intros (kxs & kx & group & key & E1 & E2 & E3 & E4 & E5 & (v & E6) & E7
            & E8 & E9 & E10 & ->).
    kx_unfold. rewrite E1. cbn. rewrite E2. cbn. rewrite E3. cbn.
    rewrite E4. cbn. rewrite E5. cbn. rewrite E6. cbn. rewrite E7, E8. cbn.
    rewrite E9. cbn. rewrite E10. reflexivity.
Qed.

Lemma handshakeApplied_after_attempt (contact contact' : Contact.t)
    (kxsBytes : bytes) (testing : bool) (r : error + unit) kx key :
  processKeyExchange kxsBytes testing contact = (contact', r) ->
  handshakeApplied kx key contact' = handshakeApplied kx key contact.
Proof.
  intros Hkx. apply processKeyExchange_writes in Hkx as (?&?&?&?&?&?& ->).
  by destruct contact.
Qed.

(** X2.  A handshake that is accepted wipes out whatever an earlier
    attempt, rejected or accepted, wrote into the contact: applying it
    after the earlier attempt gives the contact that applying it at once
    would have given. *)
Theorem accepted_handshake_overrides_earlier_attempt
    (contact contact1 contact2 : Contact.t) (earlier kxsBytes : bytes)
    (testing : bool) (r : error + unit) :
  processKeyExchange earlier testing contact = (contact1, r) ->
  processKeyExchange kxsBytes testing contact1 = (contact2, inr tt) ->
  processKeyExchange kxsBytes testing contact = (contact2, inr tt).
Proof.
  intros Hearlier Hlater.
  apply processKeyExchange_success_iff in Hlater
    as (kxs & kx & group & key & E1 & E2 & E3 & E4 & E5 & E6 & E7 & E8 & E9
        & E10 & ->).
  apply processKeyExchange_success_iff.
  exists kxs, kx, group, key. repeat split; auto.
  eauto using handshakeApplied_after_attempt.
Qed.

End MoreKeyExchangeProperties.

(** ** Making and accepting handshakes *)

(** Closes a goal [e ∉ es] for a list of effects given by its elements. *)
Ltac not_among :=
  repeat match goal with
  | |- _ ∉ _ ++ _ => apply not_elem_of_app; split
  | |- _ ∉ _ :: _ => apply not_elem_of_cons; split; [discriminate|]
  | |- _ ∉ [] => apply not_elem_of_nil
  | |- _ ∉ (if ?b then _ else _) => destruct b
  | |- _ ∉ (match ?x with _ => _ end) => destruct x
  end; auto.

Section MoreClientProperties.
Context `{Proto} `{Ed25519} `{Curve25519} `{Bbssig} `{ServerAddress}.
Context `{Pem} `{TimeFormat} `{!Sealing}.

(** X3.  What the peer stores from an accepted handshake is what the sender
    kept: the DH value stored is the public value of the private value the
    sender's contact now holds, the member key stored is the one the sender
    recorded for the contact, and the bytes returned are the ones the
    sender's contact keeps for resending. *)
Theorem handshake_hands_over_what_the_sender_kept `{!Contracts}
    (local local' : client.t) (localContact localContact' : Contact.t)
    (peerContact peerContact' : Contact.t) (kxsBytes : bytes)
    (testing : bool) (r : error + unit) :
  (exists r0 r1,
     GenerateKey r0 = inr (client.pub local, client.priv local, r1)) ->
  length (client.identityPublic local) = 32%nat ->
  (exists v, parseServer (client.server local) testing = inr v) ->
  newKeyExchange localContact local = Some (kxsBytes, localContact', local') ->
  processKeyExchange kxsBytes testing peerContact = (peerContact', r) ->
  r = inr tt
  /\ Contact.kxsBytes localContact' = kxsBytes
  /\ Contact.theirCurrentDHPublic peerContact'
     = ScalarBaseMult (Contact.lastDHPrivate localContact')
  /\ Contact.myGroupKey peerContact' = Contact.groupKey localContact'
  /\ Contact.theirIdentityPublic peerContact' = client.identityPublic local
  /\ Contact.theirServer peerContact' = client.server local
  /\ Contact.generation peerContact' = client.generation local.
Proof.
  intros Hkeys Hid Hserver Hnew Hkx.
  rewrite (processKeyExchange_accepts local localContact localContact'
             peerContact local' kxsBytes testing Hkeys Hid Hserver Hnew)
    in Hkx.
  injection Hkx as <- <-.
  apply newKeyExchange_inv in Hnew
    as (groupPriv & groupKey & r2 & kxBytes & _ & _ & _ & _ & _ & -> & _).
  by destruct localContact.
Qed.

(** X4.  The handshake that [newKeyExchange] makes is not bound to the
    contact it is made for: for any other contact the same client returns
    the same bytes and ends in the same state, and in each contact it
    changes the last DH private value, the member key and the stored
    handshake only. *)
Theorem newKeyExchange_ignores_the_contact (c c' : client.t)
    (contact contact' other : Contact.t) (kxsBytes : bytes) :
  newKeyExchange contact c = Some (kxsBytes, contact', c') ->
  newKeyExchange other c
  = Some (kxsBytes,
          Contact.set_kxsBytes kxsBytes
            (Contact.set_groupKey (Contact.groupKey contact')
               (Contact.set_lastDHPrivate (Contact.lastDHPrivate contact')
                  other)),
          c')
  /\ contact' = Contact.set_kxsBytes kxsBytes
                  (Contact.set_groupKey (Contact.groupKey contact')
                     (Contact.set_lastDHPrivate
                        (Contact.lastDHPrivate contact') contact)).
Proof.
  intros Hnew.
  apply newKeyExchange_inv in Hnew
    as (groupPriv & groupKey & r2 & kxBytes & Hlen & Hgp & Hnm & Hkx & Hkxs
        & -> & ->).
  split; [|by destruct contact].
  unfold newKeyExchange. unfold mbind at 1. unfold Cl_bind at 1.
  rewrite randBytes_eq.
  apply Nat.leb_le in Hlen. rewrite Hlen.
  cl_unfold. cbn. rewrite Hgp. cbn. rewrite Hnm. cbn.
  rewrite Hkx, Hkxs. by destruct contact.
Qed.

Lemma sameContacts_refl (m : gmap N Contact.t) : sameContacts m m.
Proof. intros i. destruct (m !! i); by constructor. Qed.

Lemma sameContacts_trans (m1 m2 m3 : gmap N Contact.t) :
  sameContacts m1 m2 -> sameContacts m2 m3 -> sameContacts m1 m3.
Proof.
  intros H12 H23 i. specialize (H12 i). specialize (H23 i).
  destruct H12 as [k1 k2 [? ?]|]; inversion H23 as [k2' k3 [? ?]|];
    constructor; split; congruence.
Qed.

Lemma sameContacts_insert (m : gmap N Contact.t) i contact contact' :
  m !! i = Some contact ->
  Contact.id contact' = Contact.id contact ->
  Contact.name contact' = Contact.name contact ->
  sameContacts m (<[i := contact']> m).
Proof.
  intros Hk Hid Hname j. destruct (decide (i = j)) as [<-|Hne].
  - rewrite Hk, lookup_insert_eq. by constructor.
  - rewrite lookup_insert_ne by done. apply sameContacts_refl.
Qed.

Lemma sameContacts_keyed (m m' : gmap N Contact.t) :
  sameContacts m m' -> contactsKeyed m -> contactsKeyed m'.
Proof.
  intros Hs Hk i k' E. specialize (Hs i). rewrite E in Hs.
  inversion Hs as [k ? [Hid _] Ek|]; subst. symmetry in Ek.
  rewrite Hid. eauto.
Qed.

Lemma sameContacts_namesUnique (m m' : gmap N Contact.t) :
  sameContacts m m' -> namesUnique m -> namesUnique m'.
Proof.
  intros Hs Hu i j k1' k2' E1 E2 Hname.
  pose proof (Hs i) as Hi. pose proof (Hs j) as Hj.
  rewrite E1 in Hi. rewrite E2 in Hj.
  inversion Hi as [k1 ? [_ Hn1] Ek1|]; inversion Hj as [k2 ? [_ Hn2] Ek2|];
    subst.
  eapply Hu; eauto. congruence.
Qed.

(** What [unsealOne] leaves as it was: everything but the ratchet of the
    contact and the record of effects. *)
Lemma unsealOne_inv contactId (msg msg' : InboxMessage.t) (c c' : client.t) :
  unsealOne contactId msg c = Some (msg', c') ->
  (msg' = msg /\ c' = c)
  \/ exists contact contact' es,
       client.contacts c !! contactId = Some contact
       /\ sameButRatchet contact contact'
       /\ c' = withContact contactId contact' es c
       /\ (SendState ∉ es).
Proof.
  unfold unsealOne.
  destruct (InboxMessage.message msg) as [m|] eqn:Em.
  { intros [= <- <-]. by left. }
  cl_unfold. cbn.
  destruct (client.contacts c !! contactId) as [contact|] eqn:Ek; [|done].
  cbn.
  destruct (InboxMessage.from msg =? Contact.id contact)%N.
  2:{ intros [= <- <-]. by left. }
  unfold unsealMessage.
  destruct (unseal contact (InboxMessage.sealed msg))
    as [[message ratchet]|] eqn:Eu; cbn.
  - destruct (length (Message.Body message) =? 0)%nat; cbn.
    + destruct (listUI_Remove _ _) as [es|] eqn:Er; [|done]. cbn.
      intros [= <- <-]. right. eexists contact, _, es.
      split; [done|]. split; [apply sameButRatchet_set|]. split; [done|].
      unfold listUI_Remove in Er. destruct (listUI_find _ _); [|done].
      injection Er as <-. not_among.
    + intros [= <- <-]. right. eexists contact, _, _.
      split; [done|]. split; [apply sameButRatchet_set|].
      split; [client_norm; by rewrite <- app_assoc|].
      unfold listUI_SetSubline, listUI_SetIndicator. not_among.
  - destruct (listUI_Remove _ _) as [es|] eqn:Er; [|done]. cbn.
    intros [= <- <-]. right. eexists contact, _, es.
    split; [done|]. split; [apply sameButRatchet_refl|]. split; [done|].
    unfold listUI_Remove in Er. destruct (listUI_find _ _); [|done].
    injection Er as <-. not_among.
Qed.

(** The same for the whole loop: between its start and its end the client
    differs in the ratchet of the contact and in the effects. *)
Lemma unsealAll_inv contactId (msgs : list InboxMessage.t) :
  forall (msgs' : list InboxMessage.t) (c c' : client.t) contact,
  client.contacts c !! contactId = Some contact ->
  unsealAll contactId msgs c = Some (msgs', c') ->
  exists contact' es,
    sameButRatchet contact contact'
    /\ c' = withContact contactId contact' es c
    /\ (SendState ∉ es)
    /\ length msgs' = length msgs.
Proof.
  induction msgs as [|msg msgs IH]; intros msgs' c c' contact Hk.
  { intros [= <- <-]. exists contact, [].
    rewrite withContact_id by done.
    split; [apply sameButRatchet_refl|]. split; [done|].
    split; [not_among|done]. }
  cbn [unsealAll]. cl_unfold.
  destruct (unsealOne contactId msg c) as [[msg1 c1]|] eqn:E1; [|done].
  destruct (unsealAll contactId msgs c1) as [[msgs1 c2]|] eqn:E2; [|done].
  intros [= <- <-].
  apply unsealOne_inv in E1
    as [[-> ->]|(k0 & k1 & es1 & Hk0 & S1 & -> & Hes1)].
  - destruct (IH _ _ _ _ Hk E2) as (k2 & es2 & S2 & -> & Hes2 & Hlen).
    exists k2, es2. repeat split; auto. cbn. by rewrite Hlen.
  - rewrite Hk in Hk0. injection Hk0 as <-.
    assert (client.contacts (withContact contactId k1 es1 c) !! contactId
            = Some k1) as Hk1 by (cbn; apply lookup_insert_eq).
    destruct (IH _ _ _ k1 Hk1 E2) as (k2 & es2 & S2 & -> & Hes2 & Hlen).
    exists k2, (es1 ++ es2). split; [eauto using sameButRatchet_trans|].
    split; [by rewrite withContact_withContact|].
    split; [not_among|]. cbn. by rewrite Hlen.
Qed.

Lemma newContactUI_finish_inv contactId (c c' : client.t) (step : LoopStep)
    contact :
  client.contacts c !! contactId = Some contact ->
  newContactUI_finish contactId c = Some (step, c') ->
  step = Return (showContact (Contact.id contact))
  /\ exists contact' inbox' es,
       sameButRatchet (Contact.set_isPending false contact) contact'
       /\ c' = client.set_inbox inbox' (withContact contactId contact' es c)
       /\ length inbox' = length (client.inbox c)
       /\ SendState ∈ es.
Proof.
  intros Hk. unfold newContactUI_finish. cl_unfold. cbn. rewrite Hk. cbn.
  set (c0 := client.set_contacts _ c).
  destruct (unsealAll contactId (client.inbox c) c0) as [[inbox' c1]|] eqn:E;
    [|done].
  apply (unsealAll_inv _ _ _ _ _ (Contact.set_isPending false contact)) in E
    as (k' & es & S & -> & Hes & Hlen).
  2:{ subst c0. cbn. apply lookup_insert_eq. }
  cbn. unfold save. cl_unfold. cbn.
  destruct (client.writerChan c); try done. cbn.
  intros [= <- <-]. split; [done|].
  exists k', inbox',
    (es ++ listUI_SetSubline (client.contactsUI c) (Contact.id contact) ""
        ++ [SendState]).
  split; [done|]. split.
  { subst c0. client_norm. rewrite insert_insert_eq.
    by rewrite <- !app_assoc. }
  split; [done|]. rewrite !elem_of_app. right. right.
  by apply list_elem_of_singleton.
Qed.

(** X5.  A "process" click that does not end the loop of [newContactUI]
    has met no handshake block or one that [processKeyExchange] rejects.
    The client then differs in the contact, which is as the rejected
    handshake left it and as pending as before, and in the three effects
    that show the error: nothing is saved, and the inbox is untouched. *)
Theorem rejected_handshake_is_shown_and_not_saved contactId (click : Click.t)
    (c c' : client.t) (contact : Contact.t) :
  client.contacts c !! contactId = Some contact ->
  newContactUI_process contactId click c = Some (Continue, c') ->
  exists contact' err,
    c' = withContact contactId contact'
           [Act (SetText "error2" (Error err)); Act (UIError err); Signal] c
    /\ Contact.isPending contact' = Contact.isPending contact
    /\ ((contact' = contact
         /\ err = errorsNew "No key exchange message found!"
         /\ forall blockBytes,
              pem_Decode (list_byte_of_string
                            (mapString (Click.textViews click) "kxin"))
              <> Some (keyExchangePEM, blockBytes))
        \/ exists blockBytes,
             pem_Decode (list_byte_of_string
                           (mapString (Click.textViews click) "kxin"))
             = Some (keyExchangePEM, blockBytes)
             /\ processKeyExchange blockBytes (client.testing c) contact
                = (contact', inl err)).
Proof.
  intros Hk. unfold newContactUI_process. cl_unfold. cbn. rewrite Hk. cbn.
  destruct (pem_Decode _) as [[blockType blockBytes]|] eqn:Epem.
  2:{ intros [= <-]. exists contact, (errorsNew "No key exchange message found!").
      split.
      { destruct c; cbn in Hk. client_norm. by rewrite insert_id. }
      split; [done|]. left. by repeat split. }
  destruct (String.eqb_spec blockType keyExchangePEM) as [->|Hne]; cbn.
  2:{ intros [= <-]. exists contact, (errorsNew "No key exchange message found!").
      split.
      { destruct c; cbn in Hk. client_norm. by rewrite insert_id. }
      split; [done|]. left. repeat split; auto. intros b [= ? ?]. done. }
  destruct (processKeyExchange blockBytes (client.testing c) contact)
    as [contact1 [err|[]]] eqn:Ekx; cbn.
  - intros [= <-]. exists contact1, err. split; [done|].
    split; [|right; eauto].
    apply processKeyExchange_writes in Ekx as (?&?&?&?&?&?& ->). done.
  - intros Hfinish.
    apply (newContactUI_finish_inv _ _ _ _ contact1) in Hfinish as [[=] _].
    client_norm. apply lookup_insert_eq.
Qed.

(** X6.  A "process" click, however it ends, neither adds nor removes a
    contact, nor changes the id or the name of any: contacts stay stored
    under their ids, and names that were unique stay unique. *)
Theorem process_click_keeps_the_contacts_apart contactId (click : Click.t)
    (c c' : client.t) (step : LoopStep) :
  newContactUI_process contactId click c = Some (step, c') ->
  sameContacts (client.contacts c) (client.contacts c')
  /\ (contactsKeyed (client.contacts c) -> contactsKeyed (client.contacts c'))
  /\ (namesUnique (client.contacts c) -> namesUnique (client.contacts c')).
Proof.
  intros Hstep.
  assert (sameContacts (client.contacts c) (client.contacts c')) as Hs.
  { revert Hstep. unfold newContactUI_process. cl_unfold. cbn.
    destruct (client.contacts c !! contactId) as [contact|] eqn:Hk; [|done].
    cbn.
    assert (forall es r,
              Some (Continue,
                    client.set_effects (client.effects c ++ es) c)
              = Some (r, c') ->
              sameContacts (client.contacts c) (client.contacts c')) as Hno.
    { intros es r [= _ <-]. apply sameContacts_refl. }
    destruct (pem_Decode _) as [[blockType blockBytes]|]; [|by apply Hno].
    destruct (negb _); [by apply Hno|].
    destruct (processKeyExchange blockBytes (client.testing c) contact)
      as [contact1 [err|[]]] eqn:Ekx; cbn.
    - intros [= _ <-]. cbn.
      apply processKeyExchange_writes in Ekx as (?&?&?&?&?&?& ->).
      by apply (sameContacts_insert _ _ contact).
    - intros Hfinish.
      apply (newContactUI_finish_inv _ _ _ _ contact1) in Hfinish
        as (_ & k' & inbox' & es & S & -> & _).
      2:{ client_norm. apply lookup_insert_eq. }
      cbn. rewrite insert_insert_eq.
      apply processKeyExchange_writes in Ekx as (?&?&?&?&?&?& ->).
      unfold sameButRatchet in S.
      apply (sameContacts_insert _ _ contact); auto; rewrite S; cbn; done. }
  eauto using sameContacts_keyed, sameContacts_namesUnique.
Qed.

End MoreClientProperties.

(** ** Names of contacts *)

Section NameProperties.
Context `{Proto} `{Ed25519} `{Curve25519} `{Bbssig} `{ServerAddress}.
Context `{Pem} `{TimeFormat} `{!Sealing}.

Lemma nameInUse_spec (contacts : gmap N Contact.t) (name : string) :
  nameInUse contacts name = true
  <-> exists i contact,
        contacts !! i = Some contact /\ Contact.name contact = name.
Proof.
  unfold nameInUse. rewrite existsb_exists. split.
  - intros ([i contact] & Hin & Hname). apply String.eqb_eq in Hname.
    apply list_elem_of_In, elem_of_map_to_list in Hin. eauto.
  - intros (i & contact & Hk & Hname). exists (i, contact). split.
    + by apply list_elem_of_In, elem_of_map_to_list.
    + by apply String.eqb_eq.
Qed.

Lemma nameInUse_false (contacts : gmap N Contact.t) (name : string) :
  nameInUse contacts name = false
  <-> forall i contact,
        contacts !! i = Some contact -> Contact.name contact <> name.
Proof.
  rewrite <- not_true_iff_false, nameInUse_spec. split.
  - intros Hno i contact Hk Hname. apply Hno. eauto.
  - intros Hall (i & contact & Hk & Hname). by eapply Hall.
Qed.

(** X7.  Which contact [findContact] returns does not depend on the order
    in which the map is walked, once names are unique: it is the contact of
    that name, and there is none exactly when no contact has the name. *)
Theorem findContact_finds_the_contact_of_that_name
    (contacts : gmap N Contact.t) (toName : string) :
  namesUnique contacts ->
  (forall contact,
     findContact contacts toName = Some contact
     <-> exists i, contacts !! i = Some contact
                   /\ Contact.name contact = toName)
  /\ (findContact contacts toName = None
      <-> nameInUse contacts toName = false).
Proof.
  intros Hunique. unfold findContact.
  destruct (find _ (map_to_list contacts)) as [[j found]|] eqn:Efind; cbn.
  - apply find_some in Efind as [Hin Hname]. cbn in Hname.
    apply String.eqb_eq in Hname.
    apply list_elem_of_In, elem_of_map_to_list in Hin.
    split.
    + intros contact. split.
      * intros [= <-]. eauto.
      * intros (i & Hk & Hn). f_equal.
        assert (i = j) as -> by (eapply Hunique; eauto; congruence).
        congruence.
    + split; [done|]. intros Hno. exfalso.
      rewrite nameInUse_false in Hno. by eapply Hno.
  - assert (forall i contact,
              contacts !! i = Some contact -> Contact.name contact <> toName)
      as Hno.
    { intros i contact Hk.
      assert (In (i, contact) (map_to_list contacts)) as Hin
        by (by apply list_elem_of_In, elem_of_map_to_list).
      apply (find_none _ _ Efind) in Hin. cbn in Hin.
      by apply String.eqb_neq in Hin. }
    split.
    + intros contact. split; [done|]. intros (i & Hk & Hn).
      by apply Hno in Hk.
    + split; [|done]. intros _. by apply nameInUse_false.
Qed.

Lemma listUI_Select_inv (cs cs' : listUI.t) (id : N) (es : list Effect) :
  listUI_Select cs id = Some (cs', es) -> cs' = listUI.set_selected id cs.
Proof.
  unfold listUI_Select. destruct (N.eqb_spec id (listUI.selected cs)) as [->|_].
  { intros [= <- <-]. by destruct cs. }
  destruct (listUI_Select_scan _ _ _ _ _) as [cur new].
  destruct (String.length new =? 0)%nat; [done|]. by intros [= <- <-].
Qed.

(** What a returning [newContactUI_create] has done. *)
Lemma newContactUI_create_inv (name : string) (c c' : client.t) (id : N)
    (kx : bytes) :
  newContactUI_create name c = Some (id, kx, c') ->
  exists contact r,
    randId_loop (client.rand c) = Some (id, r)
    /\ contact = Contact.set_kxsBytes kx
                   (Contact.set_groupKey (Contact.groupKey contact)
                      (Contact.set_lastDHPrivate
                         (Contact.lastDHPrivate contact)
                         (newContact name id)))
    /\ client.contacts c' = <[id := contact]> (client.contacts c)
    /\ client.inbox c' = client.inbox c
    /\ client.outbox c' = client.outbox c
    /\ client.queue c' = client.queue c
    /\ client.writerChan c = openChan
    /\ listUI.selected (client.contactsUI c') = id.
Proof.
  unfold newContactUI_create. unfold mbind at 1. unfold Cl_bind at 1.
  rewrite randId_eq.
  destruct (randId_loop (client.rand c)) as [[n r]|] eqn:Eid; [|done].
  cl_unfold. cbn -[newKeyExchange listUI_Select listUI_Add].
  destruct (listUI_Add _ _ _ _ _) as [cs es] eqn:Eadd.
  cbn -[newKeyExchange listUI_Select listUI_Add].
  destruct (listUI_Select cs n) as [[cs' es']|] eqn:Esel; [|done].
  apply listUI_Select_inv in Esel as ->.
  cbn -[newKeyExchange listUI_Select listUI_Add].
  match goal with
  | |- context [newKeyExchange ?k ?c0] =>
      destruct (newKeyExchange k c0) as [[[kx0 contact] c1]|] eqn:Enew;
        [|done]
  end.
  apply newKeyExchange_inv in Enew
    as (groupPriv & groupKey & r2 & kxBytes & _ & _ & _ & _ & _ & -> & ->).
  unfold save. cl_unfold. cbn.
  destruct (client.writerChan c) eqn:Ew; try done. cbn. rewrite Ew. cbn.
  intros [= <- <- <-].
  exists (Contact.set_kxsBytes kx0
            (Contact.set_groupKey (Some groupKey)
               (Contact.set_lastDHPrivate (take 32 r) (newContact name n)))),
    r.
  split; [done|]. split; [reflexivity|]. cbn.
  split; [by rewrite insert_insert_eq|]. by repeat split.
Qed.

(** X8.  A contact is created under a name only while no contact has that
    name, and from then on the name is taken: a later "create" click with
    the same name, which [nextEvent] leaves to the loop, creates nothing
    and shows the error.  The contact created is pending, stored under the
    id returned, selected in the list, and keeps the handshake returned. *)
Theorem created_name_is_taken (click again : Click.t) (c c' : client.t)
    (id : N) (kx : bytes) :
  newContactUI_nameClick click c = Some (nameCreated id kx, c') ->
  Click.name again = "create" ->
  mapString (Click.entries again) "name"
  = mapString (Click.entries click) "name" ->
  nextEvent_wanted c' again = false ->
  nameInUse (client.contacts c) (mapString (Click.entries click) "name")
  = false
  /\ (exists contact,
        client.contacts c' !! id = Some contact
        /\ Contact.id contact = id
        /\ Contact.name contact = mapString (Click.entries click) "name"
        /\ Contact.isPending contact = true
        /\ Contact.kxsBytes contact = kx)
  /\ listUI.selected (client.contactsUI c') = id
  /\ newContactUI_nameClick again c'
     = Some (nameContinue,
             client.set_effects
               (client.effects c'
                ++ [Act (SetText "error1"
                           "A contact by that name already exists!");
                    Act (UIError (errorsNew
                           "A contact by that name already exists!"));
                    Signal]) c').
Proof.
  intros Hclick Hagain Hname Hwanted.
  unfold newContactUI_nameClick in Hclick. cl_unfold.
  cbn -[newContactUI_create] in Hclick.
  destruct (nextEvent_wanted c click); [done|].
  destruct (negb _ && negb _); [done|].
  destruct (nameInUse _ _) eqn:Euse; [done|].
  destruct (newContactUI_create _ c) as [[[id0 kx0] c0]|] eqn:Ecreate;
    [|done].
  injection Hclick as -> -> ->.
  apply newContactUI_create_inv in Ecreate
    as (contact & r & _ & Hcontact & Hcontacts & _ & _ & _ & _ & Hsel).
  assert (client.contacts c' !! id = Some contact) as Hk
    by (rewrite Hcontacts; apply lookup_insert_eq).
  split; [done|]. split.
  { exists contact. split; [done|]. rewrite Hcontact. by cbn. }
  split; [done|].
  unfold newContactUI_nameClick. cl_unfold. cbn. rewrite Hwanted, Hagain. cbn.
  rewrite Hname.
  assert (nameInUse (client.contacts c')
            (mapString (Click.entries click) "name") = true) as ->.
  { apply nameInUse_spec. exists id, contact. split; [done|].
    rewrite Hcontact. by cbn. }
  reflexivity.
Qed.

(** X9.  The first loop of [newContactUI] keeps the contacts apart: after
    any click, contacts are still stored under their own ids and no two
    have the same name, even when the fresh id is one already in use. *)
Theorem name_click_keeps_the_contacts_apart (click : Click.t)
    (c c' : client.t) (step : NameStep) :
  contactsKeyed (client.contacts c) ->
  namesUnique (client.contacts c) ->
  newContactUI_nameClick click c = Some (step, c') ->
  contactsKeyed (client.contacts c') /\ namesUnique (client.contacts c').
Proof.
  intros Hkeyed Hunique.
  unfold newContactUI_nameClick. cl_unfold. cbn -[newContactUI_create].
  destruct (nextEvent_wanted c click); [by intros [= <- <-]|].
  destruct (negb _ && negb _); [by intros [= <- <-]|].
  destruct (nameInUse _ _) eqn:Euse; [by intros [= <- <-]|].
  destruct (newContactUI_create _ c) as [[[id kx] c0]|] eqn:Ecreate; [|done].
  intros [= <- <-].
  apply newContactUI_create_inv in Ecreate
    as (contact & r & _ & Hcontact & Hcontacts & _).
  assert (Contact.id contact = id) as Hid by (rewrite Hcontact; by cbn).
  assert (Contact.name contact = mapString (Click.entries click) "name")
    as Hname by (rewrite Hcontact; by cbn).
  rewrite nameInUse_false in Euse.
  rewrite Hcontacts. split.
  - intros i k. destruct (decide (id = i)) as [<-|Hne].
    + rewrite lookup_insert_eq. by intros [= <-].
    + rewrite lookup_insert_ne by done. apply Hkeyed.
  - intros i j k1 k2.
    destruct (decide (id = i)) as [<-|Hi]; destruct (decide (id = j)) as [<-|Hj];
      rewrite ?lookup_insert_eq, ?lookup_insert_ne by done; try done.
    + intros [= <-] Hk2 Hn. exfalso. eapply Euse; eauto. congruence.
    + intros Hk1 [= <-] Hn. exfalso. eapply Euse; eauto. congruence.
    + apply Hunique.
Qed.

End NameProperties.

(** ** The lists of the main window *)

Lemma newIdent_inj (vboxName : string) (n m : nat) :
  vboxName +:+ "-" +:+ pretty n = vboxName +:+ "-" +:+ pretty m -> n = m.
Proof.
  intros E. apply String.app_inj in E. apply (String.app_inj "-") in E.
  by apply pretty_nat_inj in E.
Qed.

Lemma newIdent_not_empty (vboxName : string) (n : nat) :
  vboxName +:+ "-" +:+ pretty n <> "".
Proof. destruct vboxName; cbn; discriminate. Qed.

Lemma not_empty_length (s : string) :
  (0 <? String.length s)%nat = true <-> s <> "".
Proof. destruct s; cbn; split; done. Qed.

Lemma find_lookup_unique {A} (f : A -> bool) (l : list A) :
  forall (k : nat) (x : A),
  l !! k = Some x -> f x = true ->
  (forall j y, l !! j = Some y -> f y = true -> j = k) ->
  find f l = Some x.
Proof.
  induction l as [|y l IH]; intros k x Hk Hx Hfirst; [done|].
  cbn. destruct (f y) eqn:Hy.
  - assert (0%nat = k) as <- by (by apply (Hfirst 0%nat y)).
    by injection Hk as ->.
  - destruct k as [|k]; [cbn in Hk; congruence|].
    apply (IH k); auto. intros j z Hj Hz.
    specialize (Hfirst (S j) z Hj Hz). lia.
Qed.

Lemma listUI_named_boxName_inj (cs : listUI.t) (j k : nat)
    (entry1 entry2 : listItem.t) :
  listUI_named cs ->
  listUI.entries cs !! j = Some entry1 ->
  listUI.entries cs !! k = Some entry2 ->
  listItem.boxName entry1 = listItem.boxName entry2 -> j = k.
Proof.
  intros [_ Hnames] H1 H2 E.
  destruct (Hnames _ _ H1) as (_ & E1 & _).
  destruct (Hnames _ _ H2) as (_ & E2 & _).
  rewrite E1, E2 in E. apply newIdent_inj in E. lia.
Qed.

Lemma listUI_named_boxName_not_empty (cs : listUI.t) (entry : listItem.t) :
  listUI_named cs -> entry ∈ listUI.entries cs ->
  listItem.boxName entry <> "".
Proof.
  intros [_ Hnames] Hin. apply list_elem_of_lookup in Hin as [k Hk].
  destruct (Hnames _ _ Hk) as (_ & -> & _). apply newIdent_not_empty.
Qed.

(** The list that [Add] leaves. *)
Lemma listUI_Add_fst (cs : listUI.t) (id : N) (name subline : string)
    (indicator : Indicator) :
  (listUI_Add cs id name subline indicator).1
  = listUI.mk (listUI.vboxName cs)
      (listUI.entries cs
       ++ [listItem.mk id name
             (listUI.vboxName cs +:+ "-" +:+ pretty (listUI.nextId cs))
             (listUI.vboxName cs +:+ "-" +:+ pretty (S (listUI.nextId cs)))
             (listUI.vboxName cs +:+ "-"
              +:+ pretty (S (S (listUI.nextId cs))))
             (listUI.vboxName cs +:+ "-"
              +:+ pretty (S (S (S (listUI.nextId cs)))))])
      (listUI.selected cs) (S (S (S (S (listUI.nextId cs))))).
Proof. reflexivity. Qed.

Lemma listUI_Add_named (cs : listUI.t) (id : N) (name subline : string)
    (indicator : Indicator) :
  listUI_named cs -> listUI_named (listUI_Add cs id name subline indicator).1.
Proof.
  intros [Hnext Hnames]. rewrite listUI_Add_fst. split; cbn.
  { rewrite length_app. cbn. lia. }
  intros k entry Hk. apply lookup_app_Some in Hk as [Hk|[Hlen Hk]].
  { by apply Hnames. }
  destruct (k - length (listUI.entries cs))%nat as [|d] eqn:Ed; [|done].
  injection Hk as <-. cbn. rewrite Hnext.
  replace k with (length (listUI.entries cs)) by lia.
  repeat split; do 3 f_equal; lia.
Qed.

Lemma listUI_named_empty (vboxName : string) (selected : N) :
  listUI_named (listUI.mk vboxName [] selected 0).
Proof. split; [done|]. intros k entry Hk. done. Qed.

(** X10.  In a list whose widget names are those [newIdent] handed out, a
    click on the box of an entry is the event of that entry and of no
    other: [Event] returns the id of the entry whose box was clicked,
    whatever entries come before it. *)
Theorem Event_returns_the_entry_clicked (cs : listUI.t) (k : nat)
    (entry : listItem.t) (click : Click.t) :
  listUI_named cs ->
  listUI.entries cs !! k = Some entry ->
  Click.name click = listItem.boxName entry ->
  listUI_Event cs click = Some (listItem.id entry).
Proof.
  intros Hnamed Hk Hclick. unfold listUI_Event.
  rewrite (find_lookup_unique _ _ k entry); auto.
  - by apply String.eqb_eq.
  - intros j other Hj Hother. apply String.eqb_eq in Hother.
    eapply listUI_named_boxName_inj; eauto. congruence.
Qed.

(** X11.  [Add] keeps the widget names as handed out.  It appends one
    entry, with the id and the name given, and leaves the entries before
    it and the selection alone; the box of the new entry is new, so that a
    click on it was no event of the list before, and is the event of the
    new id after. *)
Theorem Add_keeps_the_names_handed_out (cs : listUI.t) (id : N)
    (name subline : string) (indicator : Indicator) :
  listUI_named cs ->
  exists entry,
    listUI.entries (listUI_Add cs id name subline indicator).1
    = listUI.entries cs ++ [entry]
    /\ listUI.selected (listUI_Add cs id name subline indicator).1
       = listUI.selected cs
    /\ listItem.id entry = id
    /\ listItem.name entry = name
    /\ listUI_named (listUI_Add cs id name subline indicator).1
    /\ forall click : Click.t,
         Click.name click = listItem.boxName entry ->
         listUI_Event cs click = None
         /\ listUI_Event (listUI_Add cs id name subline indicator).1 click
            = Some id.
Proof.
  intros Hnamed.
  pose proof (listUI_Add_named cs id name subline indicator Hnamed) as Hnamed'.
  rewrite listUI_Add_fst in *.
  eexists. split; [reflexivity|]. cbn [listUI.selected listItem.id listItem.name
                                        listItem.boxName].
  do 3 (split; [done|]). split; [done|].
  intros click Hclick.
  assert (forall j other,
            listUI.entries cs !! j = Some other ->
            (Click.name click =? listItem.boxName other) = false) as Hold.
  { intros j other Hj. apply String.eqb_neq. rewrite Hclick.
    destruct Hnamed as [Hnext Hnames].
    destruct (Hnames _ _ Hj) as (_ & -> & _). intros E.
    apply newIdent_inj in E. apply lookup_lt_Some in Hj. lia. }
  unfold listUI_Event. cbn [listUI.entries]. split.
  - destruct (find _ (listUI.entries cs)) as [other|] eqn:Efind; [|done].
    apply find_some in Efind as [Hin Hother].
    apply list_elem_of_In, list_elem_of_lookup in Hin as [j Hj].
    rewrite (Hold _ _ Hj) in Hother. done.
  - rewrite (find_lookup_unique _ _ (length (listUI.entries cs))
               (listItem.mk id name
                  (listUI.vboxName cs +:+ "-" +:+ pretty (listUI.nextId cs))
                  (listUI.vboxName cs +:+ "-"
                   +:+ pretty (S (listUI.nextId cs)))
                  (listUI.vboxName cs +:+ "-"
                   +:+ pretty (S (S (listUI.nextId cs))))
                  (listUI.vboxName cs +:+ "-"
                   +:+ pretty (S (S (S (listUI.nextId cs))))))); auto.
    + rewrite lookup_app_r, Nat.sub_diag by lia. done.
    + cbn. by apply String.eqb_eq.
    + intros j other Hj Hother.
      apply lookup_app_Some in Hj as [Hj|[Hlen Hj]].
      { rewrite (Hold _ _ Hj) in Hother. done. }
      destruct (j - length (listUI.entries cs))%nat eqn:Ed; [lia|done].
Qed.

Lemma listUI_Deselect_fst (cs : listUI.t) :
  (listUI_Deselect cs).1 = listUI.set_selected 0 cs.
Proof.
  unfold listUI_Deselect.
  destruct (N.eqb_spec (listUI.selected cs) 0) as [E|_]; [|done].
  destruct cs; cbn in *. by rewrite E.
Qed.

(** The scan of [Select] ends with the name of a box to highlight, as soon
    as an entry other than the selected one has the id and no box has the
    empty name. *)
Lemma listUI_Select_scan_finds (selected id : N) (entries : list listItem.t) :
  forall cur new : string,
  Forall (fun entry => listItem.boxName entry <> "") entries ->
  new <> ""
  \/ Exists (fun entry => listItem.id entry = id
                          /\ listItem.id entry <> selected) entries ->
  (listUI_Select_scan selected id entries cur new).2 <> "".
Proof.
  induction entries as [|entry entries IH]; intros cur new Hboxes Hfound.
  { cbn. destruct Hfound as [?|Hex]; [done|]. by apply Exists_nil in Hex. }
  apply Forall_cons in Hboxes as [Hbox Hboxes].
  cbn [listUI_Select_scan].
  destruct (N.eqb_spec (listItem.id entry) selected) as [Esel|Esel].
  - assert (new <> ""
            \/ Exists (fun entry => listItem.id entry = id
                                    /\ listItem.id entry <> selected) entries)
      as Hrest.
    { destruct Hfound as [?|Hex]; [by left|].
      apply Exists_cons in Hex as [[_ ?]|?]; [done|by right]. }
    destruct (_ && _) eqn:Eboth; [|by apply IH].
    cbn. destruct Hrest as [?|?]; [done|].
    apply andb_true_iff in Eboth as [_ Hnew]. by apply not_empty_length.
  - destruct (N.eqb_spec (listItem.id entry) id) as [Eid|Eid].
    + destruct (_ && _); [done|]. apply IH; auto.
    + assert (new <> ""
              \/ Exists (fun entry => listItem.id entry = id
                                      /\ listItem.id entry <> selected)
                   entries) as Hrest.
      { destruct Hfound as [?|Hex]; [by left|].
        apply Exists_cons in Hex as [[? _]|?]; [done|by right]. }
      destruct (_ && _) eqn:Eboth; [|by apply IH].
      cbn. apply andb_true_iff in Eboth as [_ Hnew].
      by apply not_empty_length.
Qed.

(** After [Deselect], [Select] of the id that [Event] gave does not
    panic, and selects it. *)
Lemma listUI_Select_after_Event (cs : listUI.t) (click : Click.t) (id : N) :
  Forall (fun entry => listItem.boxName entry <> "") (listUI.entries cs) ->
  listUI_Event cs click = Some id ->
  exists es,
    listUI_Select (listUI.set_selected 0 cs) id
    = Some (listUI.set_selected id cs, es).
Proof.
  intros Hboxes Hevent. unfold listUI_Select. cbn.
  destruct (N.eqb_spec id 0) as [->|Hid]; [by exists []|].
  destruct (listUI_Select_scan _ _ _ _ _) as [cur new] eqn:Escan.
  assert (new <> "") as Hnew.
  { change new with (cur, new).2. rewrite <- Escan.
    apply listUI_Select_scan_finds; [done|]. right.
    unfold listUI_Event in Hevent.
    destruct (find _ _) as [entry|] eqn:Efind; [|done].
    injection Hevent as <-. apply find_some in Efind as [Hin _].
    apply Exists_exists. exists entry. split; [by apply list_elem_of_In|].
    done. }
  destruct new; [done|]. cbn. eauto.
Qed.

(** [client_norm], with the setter of the client list and [withLists]. *)
Ltac lists_norm :=
  cbv [withLists set_clientUI
       client.set_rand client.set_writerChan client.set_fetchNowChan
       client.set_uiActions client.set_inboxUI client.set_outboxUI
       client.set_contactsUI client.set_outbox client.set_contacts
       client.set_inbox client.set_queue client.set_effects
       client.testing client.server client.identity client.identityPublic
       client.groupPriv client.generation client.priv client.pub client.rand
       client.writerChan client.writerDone client.fetchNowChan
       client.uiActions client.inboxUI client.outboxUI client.contactsUI
       client.clientUI client.outbox client.contacts client.inbox
       client.queue client.effects].

Section DispatchProperties.
Context `{Proto} `{Ed25519} `{Curve25519} `{Bbssig} `{ServerAddress}.
Context `{Pem} `{TimeFormat} `{!Sealing}.

Lemma deselect_eq get_ui set_ui (c : client.t) :
  deselect get_ui set_ui c
  = Some (tt, client.set_effects
                (client.effects (set_ui (listUI.set_selected 0 (get_ui c)) c)
                 ++ (listUI_Deselect (get_ui c)).2)
                (set_ui (listUI.set_selected 0 (get_ui c)) c)).
Proof.
  unfold deselect. cl_unfold. cbn -[listUI_Deselect].
  rewrite (surjective_pairing (listUI_Deselect (get_ui c))).
  by rewrite listUI_Deselect_fst.
Qed.

Lemma DeselectAll_eq (c : client.t) :
  exists es,
    DeselectAll c
    = Some (tt, withLists (listUI.set_selected 0 (client.inboxUI c))
                  (listUI.set_selected 0 (client.outboxUI c))
                  (listUI.set_selected 0 (client.contactsUI c))
                  (listUI.set_selected 0 (client.clientUI c)) es c).
Proof.
  unfold DeselectAll, mbind, Cl_bind. rewrite !deselect_eq.
  destruct c. lists_norm. eexists. do 2 f_equal. f_equal.
  rewrite <- !app_assoc. reflexivity.
Qed.

Lemma select_eq get_ui set_ui (id : N) (c : client.t) :
  select get_ui set_ui id c
  = match listUI_Select (get_ui c) id with
    | Some (cs, es) =>
        Some (tt, client.set_effects (client.effects (set_ui cs c) ++ es)
                    (set_ui cs c))
    | None => None
    end.
Proof.
  unfold select. cl_unfold. cbn.
  by destruct (listUI_Select (get_ui c) id) as [[cs es]|].
Qed.

(** Ends a branch of [mainUI_dispatch] in which [Select] returns as [Hs]
    says. *)
Ltac selected_with Hs :=
  cbn [selection]; unfold mbind, Cl_bind; rewrite select_eq;
  match goal with c1 := withLists _ _ _ _ _ ?c |- _ =>
    subst c1; destruct c
  end;
  revert Hs; lists_norm; intros Hs; rewrite Hs;
  cbv [mret Cl_ret]; rewrite <- app_assoc.

Lemma nextEvent_wanted_false (c : client.t) (click : Click.t) :
  nextEvent_wanted c click = false
  <-> listUI_Event (client.inboxUI c) click = None
      /\ listUI_Event (client.outboxUI c) click = None
      /\ listUI_Event (client.contactsUI c) click = None
      /\ listUI_Event (client.clientUI c) click = None
      /\ Click.name click <> "newcontact"
      /\ Click.name click <> "compose".
Proof.
  unfold nextEvent_wanted.
  rewrite !orb_false_iff, !bool_decide_eq_false, !String.eqb_neq.
  rewrite <- !eq_None_not_Some. tauto.
Qed.

(** X12.  One turn of [mainUI] on a click, with lists named as handed out:
    the turn does not panic; it opens a screen exactly for the clicks that
    [nextEvent] reports as wanted; and it ends with the entry clicked
    selected in its list and nothing selected in the other lists, all else
    but the effects being as before. *)
Theorem dispatch_opens_a_screen_for_wanted_clicks (c : client.t)
    (click : Click.t) :
  listsNamed c ->
  exists d es,
    (let '(i, o, k, l) := selection d in
     mainUI_dispatch click c
     = Some (d, withLists (listUI.set_selected i (client.inboxUI c))
                  (listUI.set_selected o (client.outboxUI c))
                  (listUI.set_selected k (client.contactsUI c))
                  (listUI.set_selected l (client.clientUI c)) es c))
    /\ (d = noScreen <-> nextEvent_wanted c click = false).
Proof.
  intros (Hin & Hout & Hcon & Hcli & Hids).
  assert (forall cs, listUI_named cs ->
            Forall (fun entry => listItem.boxName entry <> "")
                   (listUI.entries cs)) as Hboxes.
  { intros cs [_ Hnames]. apply Forall_forall. intros entry Hentry.
    apply list_elem_of_lookup in Hentry as [k Hk].
    destruct (Hnames _ _ Hk) as (_ & -> & _).
    destruct (listUI.vboxName cs); cbn; discriminate. }
  destruct (DeselectAll_eq c) as [es0 Hdeselect].
  unfold mainUI_dispatch. unfold mbind at 1. unfold Cl_bind at 1.
  rewrite Hdeselect. unfold mbind at 1. unfold Cl_bind at 1. unfold get at 1.
  set (c1 := withLists _ _ _ _ es0 c).
  change (listUI_Event (client.inboxUI c1) click)
    with (listUI_Event (client.inboxUI c) click).
  change (listUI_Event (client.outboxUI c1) click)
    with (listUI_Event (client.outboxUI c) click).
  change (listUI_Event (client.contactsUI c1) click)
    with (listUI_Event (client.contactsUI c) click).
  change (listUI_Event (client.clientUI c1) click)
    with (listUI_Event (client.clientUI c) click).
  setoid_rewrite nextEvent_wanted_false.
  destruct (listUI_Event (client.inboxUI c) click) as [id|] eqn:Ei.
  { destruct (listUI_Select_after_Event _ _ _ (Hboxes _ Hin) Ei) as [es Hs].
    exists (openInbox id), (es0 ++ es). split; [|split; [done|by intros [? _]]].
    by selected_with Hs. }
  destruct (listUI_Event (client.outboxUI c) click) as [id|] eqn:Eo.
  { destruct (listUI_Select_after_Event _ _ _ (Hboxes _ Hout) Eo) as [es Hs].
    exists (openOutbox id), (es0 ++ es).
    split; [|split; [done|by intros (_ & ? & _)]].
    by selected_with Hs. }
  destruct (listUI_Event (client.contactsUI c) click) as [id|] eqn:Ek.
  { destruct (listUI_Select_after_Event _ _ _ (Hboxes _ Hcon) Ek) as [es Hs].
    exists (openContact id), (es0 ++ es).
    split; [|split; [done|by intros (_ & _ & ? & _)]].
    by selected_with Hs. }
  destruct (listUI_Event (client.clientUI c) click) as [id|] eqn:El.
  { destruct (listUI_Select_after_Event _ _ _ (Hboxes _ Hcli) El) as [es Hs].
    assert (id = clientUIIdentity \/ id = clientUIActivity) as Hid.
    { unfold listUI_Event in El.
      destruct (find _ _) as [entry|] eqn:Efind; [|done].
      injection El as <-. apply find_some in Efind as [Hentry _].
      rewrite Forall_forall in Hids. by apply Hids, list_elem_of_In. }
    destruct Hid as [-> | ->].
    - exists openIdentity, (es0 ++ es).
      split; [|split; [done|by intros (_ & _ & _ & ? & _)]].
      by selected_with Hs.
    - exists openLog, (es0 ++ es).
      split; [|split; [done|by intros (_ & _ & _ & ? & _)]].
      by selected_with Hs. }
  destruct (String.eqb_spec (Click.name click) "newcontact") as [En|En].
  { exists openNewContact, es0.
    split; [done|]. split; [done|]. by intros (_ & _ & _ & _ & ? & _). }
  destruct (String.eqb_spec (Click.name click) "compose") as [Ec|Ec].
  { exists openCompose, es0.
    split; [done|]. split; [done|]. by intros (_ & _ & _ & _ & _ & ?). }
  exists noScreen, es0. split; [done|]. by split.
Qed.

End DispatchProperties.

(** * The reference instances, and the properties at work on them *)

Module Examples.
Import Ref Scenario.

Lemma bytes_eqb_refl (b : bytes) : bytes_eqb b b = true.
Proof.
  induction b as [|x b IH]; [done|]. cbn. rewrite IH.
  by rewrite (Byte.byte_dec_lb eq_refl).
Qed.

Lemma getField_putField (f rest : bytes) :
  getField (putField f ++ rest) = Some (f, rest).
Proof. induction f as [|b f IH]; [done|]. cbn. by rewrite IH. Qed.

Lemma getN_putN (n : N) (rest : bytes) : getN (putN n ++ rest) = Some (n, rest).
Proof.
  unfold getN, putN. rewrite getField_putField. cbn.
  by rewrite length_replicate, N2Nat.id.
Qed.

Lemma unmarshal_marshal_KeyExchange (kx : KeyExchange.t) :
  unmarshalKeyExchange (marshalKeyExchange kx) = Some kx.
Proof.
  unfold unmarshalKeyExchange, marshalKeyExchange.
  repeat (rewrite getField_putField; cbn).
  rewrite <- (app_nil_r (putN _)), getN_putN. cbn.
  rewrite string_of_list_byte_of_string. by destruct kx.
Qed.

Lemma unmarshal_marshal_SignedKeyExchange (kxs : SignedKeyExchange.t) :
  unmarshalSignedKeyExchange (marshalSignedKeyExchange kxs) = Some kxs.
Proof.
  unfold unmarshalSignedKeyExchange, marshalSignedKeyExchange.
  rewrite getField_putField. cbn.
  rewrite <- (app_nil_r (putField _)), getField_putField. cbn.
  by destruct kxs.
Qed.

(** The stand-ins keep the promises of the packages they stand for. *)
Lemma ref_contracts : Contracts.
Proof.
  split.
  - intros kx b Hm. cbv [Marshal_KeyExchange proto] in Hm.
    injection Hm as <-. cbv [Unmarshal_KeyExchange proto].
    by rewrite unmarshal_marshal_KeyExchange.
  - intros kxs b Hm. cbv [Marshal_SignedKeyExchange proto] in Hm.
    injection Hm as <-. cbv [Unmarshal_SignedKeyExchange proto].
    by rewrite unmarshal_marshal_SignedKeyExchange.
  - intros r pub priv r'. cbv [GenerateKey ed25519].
    destruct (32 <=? length r)%nat eqn:E; [|done]. intros [= <- _ _].
    apply Nat.leb_le in E. rewrite length_take. lia.
  - intros priv m. cbv [Sign ed25519]. rewrite length_app, length_resize.
    unfold digest. by rewrite length_replicate.
  - intros r pub priv r' m. cbv [GenerateKey Sign Verify ed25519].
    destruct (32 <=? length r)%nat eqn:E; [|done]. intros [= <- <- _].
    apply Nat.leb_le in E.
    rewrite drop_app_length' by (rewrite length_take; lia).
    apply bytes_eqb_refl.
  - intros s. cbv [ScalarBaseMult curve25519]. apply length_resize.
  - done.
  - by intros [g k].
Qed.

#[local] Existing Instance ref_contracts.


(** *** The handshake *)

(** The gates at work: Alice's handshake passes them all; with the payload
    altered the signature gate is the first to fail; an empty input fails
    at the envelope. *)
Example gates_on_handshakes :
  ApplyHandshake_violation aliceHandshake true = None
  /\ ApplyHandshake_violation tamperedHandshake true = Some InvalidSignature
  /\ ApplyHandshake_violation [] true = Some MalformedHandshake.
Proof. by vm_compute. Qed.

(** C1, as stated, fails: applied to Bob's pending contact, the tampered
    handshake is rejected for its signature, and the contact has changed:
    its [theirPub] now holds the key claimed by the rejected payload. *)
Lemma tampered_handshake_changes_contact :
  processKeyExchange tamperedHandshake true bobsAlice
  = (Contact.set_theirPub (client.pub alice) bobsAlice,
     inl (errorsNew "invalid signature"))
  /\ Contact.theirPub (Contact.set_theirPub (client.pub alice) bobsAlice)
     <> Contact.theirPub bobsAlice.
Proof. split; [by vm_compute|]. by vm_compute. Qed.

Lemma processKeyExchange_error_keeps_later_fields_witness :
  processKeyExchange tamperedHandshake true bobsAlice
  = (Contact.set_theirPub (client.pub alice) bobsAlice,
     inl (errorsNew "invalid signature"))
  /\ Contact.theirServer (Contact.set_theirPub (client.pub alice) bobsAlice)
     = Contact.theirServer bobsAlice
  /\ Contact.generation (Contact.set_theirPub (client.pub alice) bobsAlice)
     = Contact.generation bobsAlice.
Proof.
  assert (E : processKeyExchange tamperedHandshake true bobsAlice
              = (Contact.set_theirPub (client.pub alice) bobsAlice,
                 inl (errorsNew "invalid signature")))
    by (vm_compute; reflexivity).
  split; [exact E|].
  destruct (processKeyExchange_error_keeps_later_fields _ _ _ _ _ E)
    as (_ & Hserver & _ & _ & _ & Hgeneration & _).
  split; [apply Hserver; vm_compute; lia|exact Hgeneration].
Defined.

Lemma handshake_round_trip_witness :
  exists peer' contact',
    newContactUI_process 7 (processClick aliceHandshake) bobWithMail
    = Some (Return (showContact 7), peer')
    /\ client.contacts peer' !! 7%N = Some contact'
    /\ Contact.isPending contact' = false
    /\ Contact.theirPub contact' = client.pub alice.
Proof.
  refine (proj2 (handshake_round_trip alice aliceAfter bobWithMail
                   alicesBob alicesBobAfter bobsAlice aliceHandshake 7
                   (processClick aliceHandshake) _ _ _ _ _ _ _ _ _)).
  - exists (replicate 32 x0a), []. vm_compute. reflexivity.
  - vm_compute. reflexivity.
  - eexists. vm_compute. reflexivity.
  - vm_compute. reflexivity.
  - vm_compute. reflexivity.
  - vm_compute. reflexivity.
  - vm_compute. reflexivity.
  - repeat constructor; intros _; vm_compute; eexists; reflexivity.
  - vm_compute. reflexivity.
Defined.

(** *** Composing and acknowledging *)

(** C4, as stated, fails: the two records that Carol composes for Alice,
    one after the other, have different ids and the same DH public value,
    the base-point multiple of the one current DH private value. *)
Lemma successive_messages_embed_the_same_DH_value :
  twoComposed
  = Some [(1%N, ScalarBaseMult (Contact.currentDHPrivate carolsAlice));
          (2%N, ScalarBaseMult (Contact.currentDHPrivate carolsAlice))].
Proof. by vm_compute. Qed.

Lemma compose_embeds_current_DH_public_witness :
  composeUI_send None ∅ (sendClick "hi") 1371859200 carol
  = Some (Return (showOutbox 1), carolAfterHi)
  /\ exists out,
       client.outbox carolAfterHi = client.outbox carol ++ [out]
       /\ Message.Time (queuedMessage.message out) = 1371859200%Z
       /\ Message.MyNextDh (queuedMessage.message out)
          = ScalarBaseMult (Contact.currentDHPrivate carolsAlice).
Proof.
  assert (E : composeUI_send None ∅ (sendClick "hi") 1371859200 carol
              = Some (Return (showOutbox 1), carolAfterHi))
    by (vm_compute; reflexivity).
  split; [exact E|].
  destruct (compose_embeds_current_DH_public _ _ _ _ _ _ _ E)
    as (to & id & replyToId & out & Hto & _ & _ & _ & _ & Hout & _ & _
        & Htime & _ & Hdh & _).
  exists out. split; [exact Hout|]. split; [exact Htime|].
  rewrite Hdh. vm_compute in Hto. injection Hto as <-. reflexivity.
Defined.

Lemma composed_body_is_never_empty_witness :
  composeUI_send None ∅ (sendClick "") 1371859200 carol
  = Some (Return (showOutbox 1),
          match composeUI_send None ∅ (sendClick "") 1371859200 carol with
          | Some (_, c) => c
          | None => carol
          end)
  /\ forall id now nextDHPub inReplyToId,
       Message.Body (ackMessage id now nextDHPub inReplyToId) = [].
Proof.
  assert (E : composeUI_send None ∅ (sendClick "") 1371859200 carol
              = Some (Return (showOutbox 1),
                      match composeUI_send None ∅ (sendClick "") 1371859200
                              carol with
                      | Some (_, c) => c
                      | None => carol
                      end))
    by (vm_compute; reflexivity).
  split; [exact E|].
  exact (proj2 (composed_body_is_never_empty _ _ _ _ _ _ _ E)).
Defined.

Lemma ack_enqueues_empty_record_witness :
  exists c' out,
    showInbox_ack 0 1371859300 carolWithMail = Some (tt, c')
    /\ client.queue c' = client.queue carolWithMail ++ [out]
    /\ Message.Body (queuedMessage.message out) = []
    /\ queuedMessage.to out = 7%N
    /\ (InboxMessage.acked <$> client.inbox c' !! 0%nat) = Some true.
Proof.
  destruct (ack_enqueues_empty_record 0 1371859300 carolWithMail
              (InboxMessage.mk 21 true (time_Unix 1371859200) 7 [] false
                 (Some (Message.mk 99 1371859100 (list_byte_of_string "hello")
                          (Some Message_RAW) None (countUp 97 32) [])))
              (Message.mk 99 1371859100 (list_byte_of_string "hello")
                 (Some Message_RAW) None (countUp 97 32) [])
              carolsAlice 1
              [x02; x00; x00; x00; x00; x00; x00; x00]
              (marshalMessage
                 (ackMessage 1 1371859300
                    (ScalarBaseMult (Contact.currentDHPrivate carolsAlice))
                    99)))
    as (c' & out & E & Hq & _ & Hbody & Hto & _ & _ & Hacked & _).
  - vm_compute. reflexivity.
  - vm_compute. reflexivity.
  - vm_compute. reflexivity.
  - vm_compute. reflexivity.
  - vm_compute. reflexivity.
  - vm_compute. lia.
  - exists c', out. split; [exact E|]. split; [exact Hq|].
    split; [exact Hbody|]. split; [exact Hto|]. by rewrite Hacked.
Defined.

(** *** Sizes *)

(** C5, as stated, fails: for a body of 16337 bytes and no attachments the
    estimate reports overflow (16388 bytes against a bound of 16384), while
    the record that the send click builds from the same body serialises to
    exactly 16384 bytes, is accepted by [send] and is enqueued: the
    candidate's time of 2^62 takes nine bytes and a current time takes
    five. *)
Lemma estimate_rejects_a_record_of_exactly_the_bound :
  usageString (longBody 16337) false (Some ∅)
  = Some ("16388 of 16384 bytes", true)
  /\ (fun r => (fst r,
               (fun out => length (marshalMessage (queuedMessage.message out)))
               <$> client.queue (snd r)))
     <$> composeUI_send None ∅ (sendClick (longBody 16337)) 1371859200 carol
     = Some (Return (showOutbox 1), [MaxSerializedMessage]).
Proof. split; by vm_compute. Qed.

Lemma usageString_overflow_iff_candidate_over_bound_witness :
  exists s over,
    usageString "hello" true None = Some (s, over)
    /\ s = "57 of 16384 bytes"
    /\ over = false.
Proof.
  destruct (usageString_overflow_iff_candidate_over_bound "hello" true None
              (marshalMessage (usageCandidate "hello" true None)))
    as (s & over & E & Hs & Hover & _).
  - vm_compute. reflexivity.
  - exists s, over. split; [exact E|]. split.
    + rewrite Hs. vm_compute. reflexivity.
    + destruct over; [|reflexivity].
      destruct Hover as [Hover _]. specialize (Hover eq_refl).
      vm_compute in Hover. lia.
Defined.

(** *** Unsealing *)

(** C6, as stated, fails: after Alice's handshake has been applied, Bob's
    inbox still holds all three messages; message 11, which did not unseal,
    is still sealed, and message 12, which unsealed to an empty body, is
    still there, decoded. *)
Lemma failed_unseal_stays_sealed :
  (fun r => (fun msg => (InboxMessage.id msg, InboxMessage.sealed msg,
                         Message.Body <$> InboxMessage.message msg))
            <$> client.inbox (snd r))
  <$> newContactUI_process 7 (processClick aliceHandshake) bobWithMail
  = Some [(11%N, [x00], None);
          (12%N, [], Some []);
          (13%N, [], Some (list_byte_of_string "hello"))].
Proof. by vm_compute. Qed.

Lemma handshake_unseals_pending_messages_witness :
  exists peer',
    newContactUI_process 7 (processClick aliceHandshake) bobWithMail
    = Some (Return (showContact 7), peer')
    /\ length (client.inbox peer') = 3%nat.
Proof.
  destruct (handshake_unseals_pending_messages 7 (processClick aliceHandshake)
              bobWithMail bobsAlice
              (fst (processKeyExchange aliceHandshake true bobsAlice))
              aliceHandshake)
    as (peer' & E & Hall).
  - vm_compute. reflexivity.
  - vm_compute. reflexivity.
  - vm_compute. reflexivity.
  - vm_compute. reflexivity.
  - repeat constructor; intros _; vm_compute; eexists; reflexivity.
  - vm_compute. reflexivity.
  - exists peer'. split; [exact E|].
    apply Forall2_length in Hall. rewrite <- Hall. reflexivity.
Defined.

(** *** Identifiers *)

(** C8, as stated, fails: with a random source that repeats itself, the two
    contacts that Dave creates get the same id, and the second takes the
    place of the first in the map of contacts. *)
Lemma repeated_source_repeats_the_id :
  twoContacts = Some (5%N, 5%N, ["erin"]).
Proof. by vm_compute. Qed.

Lemma randId_is_first_nonzero_chunk_witness :
  randId dave
  = Some (5%N, client.set_rand (drop 8 (client.rand dave)) dave)
  /\ fst <$> randId (client.set_contacts ∅ dave) = fst <$> randId dave.
Proof.
  split.
  - apply (proj1 (randId_is_first_nonzero_chunk dave _ 5)).
    exists 0%nat, [x05; x00; x00; x00; x00; x00; x00; x00].
    repeat split; vm_compute; (reflexivity || discriminate).
  - apply (proj2 (randId_is_first_nonzero_chunk dave dave 5)).
    reflexivity.
Defined.

(** *** Shutdown *)

(** C9, as stated, fails: Alice's shutdown saves, closes the writer's
    channel, and only then waits for the writer; no wait lies between the
    save and the close. *)
Lemma shutdown_waits_only_after_closing :
  (fun r => client.effects (snd r)) <$> ShutdownAndSuspend alice
  = Some [SendState; CloseWriterChan; RecvWriterDone; CloseFetchNowChan;
          CloseActions; Park]
  /\ awaitsWriteBeforeClosing
       [SendState; CloseWriterChan; RecvWriterDone; CloseFetchNowChan;
        CloseActions; Park] = false.
Proof. split; by vm_compute. Qed.

Lemma shutdown_order_witness :
  (fun r => client.effects (snd r)) <$> ShutdownAndSuspend alice
  = Some [SendState; CloseWriterChan; RecvWriterDone; CloseFetchNowChan;
          CloseActions; Park].
Proof.
  apply (shutdown_order alice); vm_compute; discriminate || reflexivity.
Defined.

End Examples.
